(** * FOIS locomotive tracker: reconciliation route and tracking session

    A shallow embedding of
    - [app/api/track-loco/route.ts]: the [POST] handler that fetches the
      live FOIS telemetry, compares it with the stored trail, persists
      the point when the locomotive moved, and answers with a snapshot;
    - [models/LocoData.ts]: the stored document;
    - [app/page.tsx]: the client component that polls the route;
    - [components/TrackingMap.tsx]: the map that draws a snapshot.

    JavaScript values are modelled as the engine has them: strings are
    sequences of UTF-16 code units, numbers are IEEE 754 binary64 values
    (the executable specification [SpecFloat] of the standard library,
    at precision 53 and maximal exponent 1024), promises that reject and
    statements that throw are an exception in a small state-and-error
    monad, and the asynchronous client is a transition system whose steps
    are the macrotasks of the event loop. *)

From Stdlib Require Import String Ascii DecimalString.
From Stdlib Require Import ZArith NArith List Bool Lia SpecFloat.
From Stdlib Require Import Sorted Permutation.
Import ListNotations.

Set Implicit Arguments.
Open Scope bool_scope.

(* ===================================================================== *)
(** * JavaScript values                                                   *)
(* ===================================================================== *)

Module JS.

(** ** Strings *)

(** A code unit is a number below 65536; nothing here depends on the
    bound. *)
Definition code_unit := N.
Definition jsstring := list code_unit.

(** A source literal.  Every literal of the program is ASCII, one code
    unit per character. *)
Definition lit (s : string) : jsstring :=
  map N_of_ascii (list_ascii_of_string s).

Fixpoint str_eqb (a b : jsstring) : bool :=
  match a, b with
  | [], [] => true
  | x :: a', y :: b' => N.eqb x y && str_eqb a' b'
  | _, _ => false
  end.

(** [ToBoolean] on a string: only the empty string is falsy. *)
Definition truthy_str (s : jsstring) : bool :=
  match s with [] => false | _ :: _ => true end.

(** [ToBoolean] on a possibly undefined string. *)
Definition truthy (v : option jsstring) : bool :=
  match v with None => false | Some s => truthy_str s end.

(** [a || b] where [a] is a possibly undefined string. *)
Definition or_else (v : option jsstring) (dflt : jsstring) : jsstring :=
  match v with
  | Some (c :: s) => c :: s
  | _ => dflt
  end.

(** LineTerminator: LF, CR, LS, PS. *)
Definition is_line_terminator (c : code_unit) : bool :=
  (N.eqb c 10 || N.eqb c 13 || N.eqb c 8232 || N.eqb c 8233)%bool.

(** WhiteSpace (TAB, VT, FF, SP, NBSP, ZWNBSP and the category Zs). *)
Definition is_white_space (c : code_unit) : bool :=
  (N.eqb c 9 || N.eqb c 11 || N.eqb c 12 || N.eqb c 32 || N.eqb c 160
   || N.eqb c 65279 || N.eqb c 5760
   || (N.leb 8192 c && N.leb c 8202)
   || N.eqb c 8239 || N.eqb c 8287 || N.eqb c 12288)%bool.

(** [String.prototype.trim]: white space and line terminators are
    dropped at both ends. *)
Fixpoint trim_start (s : jsstring) : jsstring :=
  match s with
  | c :: r =>
      if is_white_space c || is_line_terminator c then trim_start r
      else s
  | [] => []
  end.

Definition trim (s : jsstring) : jsstring :=
  rev (trim_start (rev (trim_start s))).

(** [strip_prefix p s] is the rest of [s] after [p] when [s] starts with
    [p]. *)
Fixpoint strip_prefix (p s : jsstring) : option jsstring :=
  match p with
  | [] => Some s
  | x :: p' =>
      match s with
      | [] => None
      | y :: s' => if N.eqb x y then strip_prefix p' s' else None
      end
  end.

(** Decimal rendering of a non-negative integer ([Number::toString]). *)
Definition nat_to_str (n : N) : jsstring :=
  lit (NilZero.string_of_uint (N.to_uint n)).

(** ** Numbers *)

Definition number := spec_float.

Definition prec : Z := 53.
Definition emax : Z := 1024.

Definition NaN : number := S754_nan.

Definition sub (x y : number) : number := SFsub prec emax x y.

(** [Math.abs]. *)
Definition Math_abs (x : number) : number := SFabs x.

(** [x > y]: the relational comparison evaluates [y < x]; it is false as
    soon as one operand is NaN. *)
Definition gt (x y : number) : bool := SFltb y x.

(** ** [parseFloat]

    The builtin: leading white space is skipped, the longest prefix that
    is a StrDecimalLiteral is read, and its mathematical value is rounded
    to the nearest binary64 (ties to even); NaN when there is no such
    prefix. *)

Definition digit_val (c : code_unit) : option Z :=
  if (N.leb 48 c && N.leb c 57)%bool then Some (Z.of_N (c - 48)) else None.

Fixpoint span_digits (s : jsstring) : list Z * jsstring :=
  match s with
  | [] => ([], [])
  | c :: r =>
      match digit_val c with
      | Some d => let '(ds, rest) := span_digits r in (d :: ds, rest)
      | None => ([], s)
      end
  end.

Definition decimal_value (ds : list Z) : Z :=
  fold_left (fun acc d => (10 * acc + d)%Z) ds 0%Z.

Definition parse_sign (s : jsstring) : bool * jsstring :=
  match s with
  | c :: r =>
      if N.eqb c 43 then (false, r)
      else if N.eqb c 45 then (true, r)
      else (false, s)
  | [] => (false, s)
  end.

(** ExponentPart, when complete; 0 otherwise (the prefix then stops
    before the exponent indicator). *)
Definition parse_exponent (s : jsstring) : Z :=
  match s with
  | c :: r =>
      if (N.eqb c 101 || N.eqb c 69)%bool then
        let '(neg, r') := parse_sign r in
        match span_digits r' with
        | ([], _) => 0%Z
        | (ds, _) => if neg then (- decimal_value ds)%Z else decimal_value ds
        end
      else 0%Z
  | [] => 0%Z
  end.

(** The value [m * 10 ^ e] rounded once to binary64. *)
Definition of_decimal (neg : bool) (m e : Z) : number :=
  match m with
  | Zpos p =>
      if (0 <=? e)%Z then
        binary_round prec emax neg (p * Z.to_pos (10 ^ e)) 0
      else
        SFdiv prec emax (S754_finite neg p 0)
                        (S754_finite false (Z.to_pos (10 ^ (- e))) 0)
  | _ => S754_zero neg
  end.

(** StrUnsignedDecimalLiteral: [Infinity], [d+ . d* exp?], [. d+ exp?],
    [d+ exp?]. *)
Definition parse_unsigned (neg : bool) (s : jsstring) : number :=
  match strip_prefix (lit "Infinity") s with
  | Some _ => S754_infinity neg
  | None =>
      let '(ip, r) := span_digits s in
      match strip_prefix (lit ".") r with
      | Some r' =>
          let '(fp, r'') := span_digits r' in
          match ip, fp with
          | [], [] => NaN
          | _, _ =>
              of_decimal neg (decimal_value (ip ++ fp))
                         (parse_exponent r'' - Z.of_nat (length fp))
          end
      | None =>
          match ip with
          | [] => NaN
          | _ => of_decimal neg (decimal_value ip) (parse_exponent r)
          end
      end
  end.

Definition parseFloat (s : jsstring) : number :=
  let '(neg, r) := parse_sign (trim_start s) in
  parse_unsigned neg r.

(** [parseFloat(v)] for a field that may be missing: the argument goes
    through [ToString] first, and [undefined] becomes the text
    "undefined". *)
Definition parseFloat_field (v : option jsstring) : number :=
  match v with
  | Some s => parseFloat s
  | None => parseFloat (lit "undefined")
  end.

End JS.

(* ===================================================================== *)
(** * The route handler: [app/api/track-loco/route.ts]                   *)
(* ===================================================================== *)

Module Route.
Import JS.

(** ** Payload types *)

Record TrackingData := {
  lat : number;
  lng : number;
  station : jsstring;
  event : jsstring;
  speed : jsstring
}.

(** An element of [TrackingApiResponse.history]; the four last fields
    are optional in the interface. *)
Record HistoryPoint := {
  h_lat : number;
  h_lng : number;
  h_timestamp : option jsstring;
  h_station : option jsstring;
  h_event : option jsstring;
  h_speed : option jsstring
}.

Record TrackingApiResponse := {
  current : TrackingData;
  history : list HistoryPoint
}.

(** ** [parsePopupMsg] *)

Definition close_tag : jsstring := lit "</b>".

(** [(.*?)<\/b>] at the current position: the lazy quantifier takes the
    fewest characters, none of them a line terminator, that bring the
    matcher in front of the closing tag. *)
Fixpoint lazy_capture (s : jsstring) : option jsstring :=
  match strip_prefix close_tag s with
  | Some _ => Some []
  | None =>
      match s with
      | [] => None
      | c :: r =>
          if is_line_terminator c then None
          else option_map (cons c) (lazy_capture r)
      end
  end.

(** One attempt of [/label(.*?)<\/b>/] anchored at the start of [s]. *)
Definition match_here (label s : jsstring) : option jsstring :=
  match strip_prefix label s with
  | Some r => lazy_capture r
  | None => None
  end.

(** [s.match(/label(.*?)<\/b>/)]: the attempts run from left to right
    and the first that succeeds wins; the result is capture group 1, or
    [None] for [null]. *)
Fixpoint regex_match (label s : jsstring) : option jsstring :=
  match match_here label s with
  | Some cap => Some cap
  | None =>
      match s with
      | [] => None
      | _ :: r => regex_match label r
      end
  end.

Definition NA : jsstring := lit "N/A".

Record PopupInfo := {
  p_station : jsstring;
  p_event : jsstring;
  p_speed : jsstring
}.

Definition parsePopupMsg (html : jsstring) : PopupInfo :=
  let stationMatch := regex_match (lit "Station: <b>") html in
  let eventMatch := regex_match (lit "Event: <b>") html in
  let speedMatch := regex_match (lit "Speed: <b>") html in
  {| p_station := match stationMatch with Some m1 => m1 | None => NA end;
     p_event := match eventMatch with Some m1 => m1 | None => NA end;
     p_speed := match speedMatch with Some m1 => m1 | None => NA end |}.

(** ** The stored document: [models/LocoData.ts]

    The schema requires every field, but the handler allows for older
    documents without the text fields or without [createdAt], so they
    are optional on the read side.  Dates are milliseconds since the
    epoch. *)
Record LocoData := {
  d_locoId : jsstring;
  d_lat : number;
  d_lng : number;
  d_station : option jsstring;
  d_event : option jsstring;
  d_speed : option jsstring;
  d_createdAt : option Z
}.

(** Ascending order on [createdAt]; a missing value sorts first. *)
Definition createdAt_leb (a b : option Z) : bool :=
  match a, b with
  | None, _ => true
  | Some _, None => false
  | Some x, Some y => (x <=? y)%Z
  end.

Fixpoint insert_asc (d : LocoData) (l : list LocoData) : list LocoData :=
  match l with
  | [] => [d]
  | x :: r =>
      if createdAt_leb (d_createdAt d) (d_createdAt x) then d :: x :: r
      else x :: insert_asc d r
  end.

Definition sort_asc (l : list LocoData) : list LocoData :=
  fold_right insert_asc [] l.

(** [LocoData.find({ locoId }).sort({ createdAt: 'asc' })] on the
    collection, kept in insertion order; documents with the same
    [createdAt] stay in that order. *)
Definition find_sorted (locoId : jsstring) (coll : list LocoData)
  : list LocoData :=
  sort_asc (filter (fun d => str_eqb (d_locoId d) locoId) coll).

(** ** The outside world of one call *)

(** What a [throw] or a rejected promise carries: an [Error] with its
    message, or some other value. *)
Inductive thrown :=
| ErrorObj (message : jsstring)
| OtherValue.

Record LocoDtl := {
  PopUpMsg : option jsstring;
  Lttd : option jsstring;
  Lgtd : option jsstring
}.

Record FoisData := {
  RowCont : option jsstring;
  LocoDtls : option (list LocoDtl)
}.

Record FoisResponse := {
  ok : bool;
  status : N;
  json : thrown + FoisData
}.

(** The answers the environment gives during one call.  [request_json]
    is [await request.json()] followed by the destructuring of
    [locoId], which the client sends as a string; [dbConnect],
    [find_fails] and [create_fails] tell whether the corresponding
    promise rejects, and with what ([create] also rejects when the
    schema refuses the document).  The two clocks are the time the
    store stamps on a new document and the time [new Date()] reads
    when the current point is pushed.  Writes to the console are left
    out, and so is the expiry of old documents, which the store runs
    on its own between calls. *)
Record world := {
  request_json : thrown + option jsstring;
  fetch : jsstring -> thrown + FoisResponse;
  dbConnect : option thrown;
  find_fails : option thrown;
  create_fails : option thrown;
  clock_create : Z;
  clock_reply : Z;
  toLocaleString : Z -> jsstring
}.

(** Outbound operations, in the order they are issued. *)
Inductive op :=
| OpFetch (url : jsstring)
| OpConnect
| OpFind (locoId : jsstring)
| OpCreate (doc : LocoData).

Definition is_store_op (o : op) : bool :=
  match o with OpFetch _ => false | _ => true end.

Record sys := {
  coll : list LocoData;
  ops : list op
}.

(** ** The handler monad: state of the collection and the log, plus
    exceptions *)

Definition M (A : Type) : Type := sys -> (thrown + A) * sys.

Definition ret {A} (a : A) : M A := fun s => (inr a, s).

Definition throw {A} (e : thrown) : M A := fun s => (inl e, s).

Definition bind {A B} (m : M A) (k : A -> M B) : M B :=
  fun s =>
    match m s with
    | (inr a, s') => k a s'
    | (inl e, s') => (inl e, s')
    end.

Definition try_catch {A} (m : M A) (h : thrown -> M A) : M A :=
  fun s =>
    match m s with
    | (inr a, s') => (inr a, s')
    | (inl e, s') => h e s'
    end.

Definition lift {A} (r : thrown + A) : M A := fun s => (r, s).

Definition log (o : op) : M unit :=
  fun s => (inr tt, {| coll := coll s; ops := ops s ++ [o] |}).

Declare Scope handler_scope.
Delimit Scope handler_scope with handler.
Notation "x <- m ;; k" := (bind m (fun x => k))
  (at level 61, m at next level, right associativity) : handler_scope.
Notation "m ;;; k" := (bind m (fun _ => k))
  (at level 61, right associativity) : handler_scope.
Open Scope handler_scope.

(** ** Operations on the world *)

Definition do_fetch (w : world) (url : jsstring) : M FoisResponse :=
  log (OpFetch url) ;;; lift (fetch w url).

Definition do_dbConnect (w : world) : M unit :=
  log OpConnect ;;;
  match dbConnect w with
  | Some e => throw e
  | None => ret tt
  end.

Definition do_find (w : world) (locoId : jsstring) : M (list LocoData) :=
  log (OpFind locoId) ;;;
  match find_fails w with
  | Some e => throw e
  | None => fun s => (inr (find_sorted locoId (coll s)), s)
  end.

(** [LocoData.create({ locoId, ...currentData })]; the timestamps option
    of the schema sets [createdAt]. *)
Definition new_doc (locoId : jsstring) (c : TrackingData) (t : option Z)
  : LocoData :=
  {| d_locoId := locoId;
     d_lat := lat c;
     d_lng := lng c;
     d_station := Some (station c);
     d_event := Some (event c);
     d_speed := Some (speed c);
     d_createdAt := t |}.

Definition do_create (w : world) (locoId : jsstring) (c : TrackingData)
  : M unit :=
  log (OpCreate (new_doc locoId c None)) ;;;
  match create_fails w with
  | Some e => throw e
  | None =>
      fun s =>
        (inr tt,
         {| coll := coll s ++ [new_doc locoId c (Some (clock_create w))];
            ops := ops s |})
  end.

(** ** Responses *)

Inductive Body :=
| ErrorBody (error : jsstring)
| Snapshot (payload : TrackingApiResponse).

Record Response := {
  r_status : N;
  r_body : Body
}.

(** [NextResponse.json(body, { status })]; the status is 200 when the
    second argument is left out. *)
Definition NextResponse_json (b : Body) (st : N) : Response :=
  {| r_status := st; r_body := b |}.

(** ** Step 3: the movement test *)

(** The literal [0.0001], that is, the binary64 nearest to it. *)
Definition COORDINATE_TOLERANCE : number :=
  Eval vm_compute in parseFloat (lit "0.0001").

Definition lastRecord (historyRecords : list LocoData) : option LocoData :=
  if (0 <? length historyRecords)%nat
  then nth_error historyRecords (length historyRecords - 1)
  else None.

Definition hasMoved (last : option LocoData) (currentData : TrackingData)
  : bool :=
  match last with
  | None => true
  | Some r =>
      gt (Math_abs (sub (d_lat r) (lat currentData))) COORDINATE_TOLERANCE
      || gt (Math_abs (sub (d_lng r) (lng currentData))) COORDINATE_TOLERANCE
  end.

(** ** Step 5: the history payload *)

Definition toHistoryPoint (w : world) (rec : LocoData) : HistoryPoint :=
  {| h_lat := d_lat rec;
     h_lng := d_lng rec;
     h_timestamp :=
       match d_createdAt rec with
       | Some t => Some (toLocaleString w t)
       | None => None
       end;
     h_station := Some (or_else (d_station rec) (lit "Historical Position"));
     h_event := Some (or_else (d_event rec) NA);
     h_speed := Some (or_else (d_speed rec) NA) |}.

(** The object pushed for the current position. *)
Definition currentPoint (w : world) (c : TrackingData) : HistoryPoint :=
  {| h_lat := lat c;
     h_lng := lng c;
     h_timestamp := Some (toLocaleString w (clock_reply w));
     h_station := Some (station c);
     h_event := Some (event c);
     h_speed := Some (speed c) |}.

(** Which arm of the [if / else if] after the [map] runs. *)
Inductive push_arm :=
| ArmSaved          (* hasMoved && newRecordSaved *)
| ArmEmptyNoMove    (* !hasMoved && finalHistory.length === 0 *)
| ArmNone.

Definition select_arm (moved newRecordSaved : bool) (len : nat) : push_arm :=
  if moved && newRecordSaved then ArmSaved
  else if negb moved && (len =? 0)%nat then ArmEmptyNoMove
  else ArmNone.

Definition finalHistory (w : world) (historyRecords : list LocoData)
    (currentData : TrackingData) (moved newRecordSaved : bool)
  : list HistoryPoint :=
  let mapped := map (toHistoryPoint w) historyRecords in
  match select_arm moved newRecordSaved (length mapped) with
  | ArmSaved => mapped ++ [currentPoint w currentData]
  | ArmEmptyNoMove => mapped ++ [currentPoint w currentData]
  | ArmNone => mapped
  end.

(** ** [POST] *)

Definition apiUrl (locoId : jsstring) : jsstring :=
  lit "https://fois.indianrail.gov.in/foisweb/GG_AjaxInteraction?Optn=RTIS_CURRENT_LOCO_RPTG&Loco="
  ++ locoId.

(** The text of a template placeholder or of a query value. *)
Definition to_string (v : option jsstring) : jsstring :=
  match v with Some s => s | None => lit "undefined" end.

(** [foisData.RowCont === "0"]. *)
Definition is_zero_rows (v : option jsstring) : bool :=
  match v with Some s => str_eqb s (lit "0") | None => false end.

(** A property read on a value that may be undefined. *)
Definition read_of {A} (v : option A) (prop : string) : M A :=
  match v with
  | Some a => ret a
  | None =>
      throw (ErrorObj (lit "Cannot read properties of undefined (reading '"
                       ++ lit prop ++ lit "')"))
  end.

(** [{ lat: parseFloat(currentDetails.Lttd),
       lng: parseFloat(currentDetails.Lgtd), ...parsedInfo }]. *)
Definition currentData_of (currentDetails : LocoDtl) (parsedInfo : PopupInfo)
  : TrackingData :=
  {| lat := parseFloat_field (Lttd currentDetails);
     lng := parseFloat_field (Lgtd currentDetails);
     station := p_station parsedInfo;
     event := p_event parsedInfo;
     speed := p_speed parsedInfo |}.

Definition error_message (e : thrown) : jsstring :=
  match e with
  | ErrorObj m => m
  | OtherValue => lit "An unknown error occurred"
  end.

Definition POST (w : world) : M Response :=
  try_catch
    (locoId <- lift (request_json w) ;;
     if negb (truthy locoId) then
       ret (NextResponse_json (ErrorBody (lit "Loco ID is required")) 400)
     else
       let id := to_string locoId in
       (* 1. the live data *)
       foisResponse <- do_fetch w (apiUrl id) ;;
       (if negb (ok foisResponse)
        then throw (ErrorObj (lit "FOIS API failed: "
                              ++ nat_to_str (status foisResponse)))
        else ret tt) ;;;
       foisData <- lift (json foisResponse) ;;
       if is_zero_rows (RowCont foisData)
          || match LocoDtls foisData with None => true | Some _ => false end
       then
         ret (NextResponse_json
                (ErrorBody (lit "Loco not found or no data available.")) 404)
       else
         let rows := match LocoDtls foisData with Some l => l | None => [] end in
         currentDetails <- read_of (nth_error rows 0) "PopUpMsg" ;;
         html <- read_of (PopUpMsg currentDetails) "match" ;;
         let parsedInfo := parsePopupMsg html in
         let currentData := currentData_of currentDetails parsedInfo in
         (* 2. the existing history *)
         do_dbConnect w ;;;
         historyRecords <- do_find w id ;;
         (* 3. comparison with the last stored point *)
         let moved := hasMoved (lastRecord historyRecords) currentData in
         (* 4. save when moved; a failure is swallowed *)
         newRecordSaved <-
           (if moved then
              try_catch (do_create w id currentData ;;; ret true)
                        (fun _ => ret false)
            else ret false) ;;
         (* 5. and 6. *)
         ret (NextResponse_json
                (Snapshot
                   {| current := currentData;
                      history := finalHistory w historyRecords currentData
                                              moved newRecordSaved |})
                200))
    (fun error =>
       ret (NextResponse_json (ErrorBody (error_message error)) 500)).

(** One call, from a collection: the response, the collection
    afterwards and the operations issued. *)
Definition call (w : world) (c : list LocoData)
  : (thrown + Response) * sys :=
  POST w {| coll := c; ops := [] |}.

End Route.

(* ===================================================================== *)
(** * The tracking session: [app/page.tsx]                               *)
(* ===================================================================== *)

Module Page.
Import JS Route.

(** A call of [fetchData] suspended at its [await]: the request it sent
    and the [isTracking] of the render that created this [fetchData]
    (the closure does not see later updates). *)
Record poll := {
  q_locoId : jsstring;
  q_isTracking : bool
}.

(** The component: its state variables, the ref, and what the runtime
    holds for it, namely the intervals that are set (with the [locoId]
    their callback closes over) and the suspended calls. *)
Record state := {
  locoId : jsstring;
  currentData : option TrackingData;
  historyData : list HistoryPoint;
  isTracking : bool;
  isLoading : bool;
  error : option jsstring;
  intervalRef : option nat;
  timers : list (nat * jsstring);
  next_timer : nat;
  inflight : list poll
}.

Definition init : state :=
  {| locoId := lit "37875";
     currentData := None;
     historyData := [];
     isTracking := false;
     isLoading := false;
     error := None;
     intervalRef := None;
     timers := [];
     next_timer := 0;
     inflight := [] |}.

(** *** State setters *)

Definition setLocoId (v : jsstring) (s : state) : state :=
  {| locoId := v; currentData := currentData s;
     historyData := historyData s; isTracking := isTracking s;
     isLoading := isLoading s; error := error s;
     intervalRef := intervalRef s; timers := timers s;
     next_timer := next_timer s; inflight := inflight s |}.

Definition setCurrentData (v : option TrackingData) (s : state) : state :=
  {| locoId := locoId s; currentData := v;
     historyData := historyData s; isTracking := isTracking s;
     isLoading := isLoading s; error := error s;
     intervalRef := intervalRef s; timers := timers s;
     next_timer := next_timer s; inflight := inflight s |}.

Definition setHistoryData (v : list HistoryPoint) (s : state) : state :=
  {| locoId := locoId s; currentData := currentData s;
     historyData := v; isTracking := isTracking s;
     isLoading := isLoading s; error := error s;
     intervalRef := intervalRef s; timers := timers s;
     next_timer := next_timer s; inflight := inflight s |}.

Definition setIsTracking (v : bool) (s : state) : state :=
  {| locoId := locoId s; currentData := currentData s;
     historyData := historyData s; isTracking := v;
     isLoading := isLoading s; error := error s;
     intervalRef := intervalRef s; timers := timers s;
     next_timer := next_timer s; inflight := inflight s |}.

Definition setIsLoading (v : bool) (s : state) : state :=
  {| locoId := locoId s; currentData := currentData s;
     historyData := historyData s; isTracking := isTracking s;
     isLoading := v; error := error s;
     intervalRef := intervalRef s; timers := timers s;
     next_timer := next_timer s; inflight := inflight s |}.

Definition setError (v : option jsstring) (s : state) : state :=
  {| locoId := locoId s; currentData := currentData s;
     historyData := historyData s; isTracking := isTracking s;
     isLoading := isLoading s; error := v;
     intervalRef := intervalRef s; timers := timers s;
     next_timer := next_timer s; inflight := inflight s |}.

Definition set_inflight (v : list poll) (s : state) : state :=
  {| locoId := locoId s; currentData := currentData s;
     historyData := historyData s; isTracking := isTracking s;
     isLoading := isLoading s; error := error s;
     intervalRef := intervalRef s; timers := timers s;
     next_timer := next_timer s; inflight := v |}.

(** *** Timers *)

(** [clearInterval(id)]. *)
Definition clearInterval (id : nat) (s : state) : state :=
  {| locoId := locoId s; currentData := currentData s;
     historyData := historyData s; isTracking := isTracking s;
     isLoading := isLoading s; error := error s;
     intervalRef := intervalRef s;
     timers := filter (fun t => negb (Nat.eqb (fst t) id)) (timers s);
     next_timer := next_timer s; inflight := inflight s |}.

(** [intervalRef.current = setInterval(() => fetchData(locoId), 30000)]. *)
Definition setInterval_ref (s : state) : state :=
  {| locoId := locoId s; currentData := currentData s;
     historyData := historyData s; isTracking := isTracking s;
     isLoading := isLoading s; error := error s;
     intervalRef := Some (next_timer s);
     timers := timers s ++ [(next_timer s, locoId s)];
     next_timer := S (next_timer s); inflight := inflight s |}.

(** [if (intervalRef.current) clearInterval(intervalRef.current)]: the
    cleanup of the effect, and its branch for a stopped session. *)
Definition clear_ref (s : state) : state :=
  match intervalRef s with
  | Some id => clearInterval id s
  | None => s
  end.

(** The polling effect, run when a render commits with another
    [isTracking] or [locoId] than the render before: first the cleanup
    the previous run returned, then the body. *)
Definition polling_effect (s : state) : state :=
  let s1 := clear_ref s in
  if isTracking s1 then setInterval_ref s1 else clear_ref s1.

(** The end of a macrotask: the state updates of the handler are
    rendered and the effect runs if its dependencies changed.  No
    handler changes a dependency more than once, so batching the
    updates or rendering after each gives the same result. *)
Definition commit (before after : state) : state :=
  if Bool.eqb (isTracking before) (isTracking after)
     && str_eqb (locoId before) (locoId after)
  then after
  else polling_effect after.

(** *** [fetchData] *)

(** Up to the [await]; [tracking] is the [isTracking] this [fetchData]
    closes over. *)
Definition fetchData_begin (tracking : bool) (id : jsstring) (s : state)
  : state :=
  let s1 := if negb tracking then setIsLoading true s else s in
  let s2 := setError None s1 in
  set_inflight (inflight s2 ++ [{| q_locoId := trim id;
                                   q_isTracking := tracking |}]) s2.

(** How the awaited request ends: [fetch] or [response.json()] rejects,
    or a response arrives with its [ok] flag and its body. *)
Inductive outcome :=
| Rejected (e : thrown)
| Replied (ok : bool) (data : Body).

(** The [try] block after the [await]s: the snapshot, or what is
    thrown. *)
Definition received (o : outcome) : thrown + TrackingApiResponse :=
  match o with
  | Rejected e => inl e
  | Replied ok (ErrorBody e) =>
      inl (ErrorObj (or_else (Some e) (lit "Failed to fetch data")))
  | Replied ok (Snapshot data) =>
      if negb ok then inl (ErrorObj (lit "Failed to fetch data"))
      else inr data
  end.

(** From the [await] to the end, [finally] included. *)
Definition fetchData_resume (q : poll) (o : outcome) (s : state) : state :=
  let s1 :=
    match received o with
    | inr data =>
        let s' := setHistoryData (history data)
                    (setCurrentData (Some (current data)) s) in
        if negb (q_isTracking q) then setIsTracking true s' else s'
    | inl err =>
        setIsTracking false (setError (Some (error_message err)) s)
    end in
  setIsLoading false s1.

(** *** [handleFormSubmit] *)

Definition handleFormSubmit (s : state) : state :=
  if isTracking s then setIsTracking false s
  else
    fetchData_begin (isTracking s) (locoId s)
      (setHistoryData [] (setCurrentData None s)).

(** *** The event loop *)

Inductive event :=
| Submit                          (* the form is submitted *)
| ChangeLocoId (v : jsstring)     (* the input's onChange *)
| Tick (t : nat)                  (* interval [t] fires *)
| Settle (i : nat) (o : outcome). (* the [i]-th suspended call resumes *)

Fixpoint remove_nth {A} (i : nat) (l : list A) : list A :=
  match i, l with
  | _, [] => []
  | O, _ :: r => r
  | S j, x :: r => x :: remove_nth j r
  end.

Fixpoint timer_closure (t : nat) (l : list (nat * jsstring))
  : option jsstring :=
  match l with
  | [] => None
  | (t', id) :: r => if Nat.eqb t' t then Some id else timer_closure t r
  end.

(** One macrotask.  [None] when the event cannot happen: the input and
    the button are disabled while [isLoading], only a set interval
    fires, only a suspended call resumes. *)
Definition step (s : state) (e : event) : option state :=
  match e with
  | Submit =>
      if isLoading s then None else Some (commit s (handleFormSubmit s))
  | ChangeLocoId v =>
      if isLoading s then None else Some (commit s (setLocoId v s))
  | Tick t =>
      match timer_closure t (timers s) with
      | Some id => Some (commit s (fetchData_begin true id s))
      | None => None
      end
  | Settle i o =>
      match nth_error (inflight s) i with
      | Some q =>
          Some (commit s
                  (fetchData_resume q o
                     (set_inflight (remove_nth i (inflight s)) s)))
      | None => None
      end
  end.

Fixpoint run (s : state) (tr : list event) : option state :=
  match tr with
  | [] => Some s
  | e :: tr' =>
      match step s e with
      | Some s' => run s' tr'
      | None => None
      end
  end.

Definition reachable (s : state) : Prop :=
  exists tr, run init tr = Some s.

End Page.

(* ===================================================================== *)
(** * The map: [components/TrackingMap.tsx]                              *)
(* ===================================================================== *)

Module MapView.
Import JS Route.

(** [x === y] on numbers: false when an operand is NaN, true between
    the two zeros. *)
Definition strict_eq (x y : number) : bool := SFeqb x y.

Inductive icon :=
| historyMarkerIcon
| currentLocoIcon.

(** A [Marker] element with the three lines of its popup. *)
Record Marker := {
  m_key : option jsstring;
  m_position : number * number;
  m_icon : icon;
  m_zIndexOffset : N;
  m_station : jsstring;
  m_event : jsstring;
  m_speed : jsstring
}.

(** [array.map((x, index) => f(x, index))], counting from [i]. *)
Fixpoint mapi_from {A B} (f : A -> nat -> B) (i : nat) (l : list A)
  : list B :=
  match l with
  | [] => []
  | x :: r => f x i :: mapi_from f (S i) r
  end.

(** The callback of [historyData.map]: [None] is the [null] it returns
    for a last point that lies at the current position. *)
Definition historyMarker (currentPosition : number * number) (len : nat)
    (point : HistoryPoint) (index : nat) : option Marker :=
  let pos := (h_lat point, h_lng point) in
  let isCurrentPosition :=
    strict_eq (h_lat point) (fst currentPosition)
    && strict_eq (h_lng point) (snd currentPosition) in
  if isCurrentPosition && (Z.of_nat index =? Z.of_nat len - 1)%Z then None
  else
    Some {| m_key := Some (lit "hist-" ++ nat_to_str (N.of_nat index));
            m_position := pos;
            m_icon := historyMarkerIcon;
            m_zIndexOffset := 1000 + N.of_nat index;
            m_station := or_else (h_station point) (lit "N/A");
            m_event := or_else (h_event point) (lit "N/A");
            m_speed := or_else (h_speed point) (lit "N/A") |}.

(** What the component puts on the map: the centre of the view, the
    track line when there are at least two positions, one entry per
    history point, and the marker of the current position. *)
Record view := {
  center : number * number;
  polyline : option (list (number * number));
  historyMarkers : list (option Marker);
  currentMarker : Marker
}.

Definition TrackingMap (currentData : TrackingData)
    (historyData : list HistoryPoint) : view :=
  let currentPosition := (lat currentData, lng currentData) in
  let historyPositions := map (fun p => (h_lat p, h_lng p)) historyData in
  {| center := currentPosition;
     polyline :=
       if (1 <? length historyPositions)%nat then Some historyPositions
       else None;
     historyMarkers :=
       mapi_from (historyMarker currentPosition (length historyData))
                 0 historyData;
     currentMarker :=
       {| m_key := None;
          m_position := currentPosition;
          m_icon := currentLocoIcon;
          m_zIndexOffset := 2000;
          m_station := station currentData;
          m_event := event currentData;
          m_speed := speed currentData |} |}.


End MapView.

(* ===================================================================== *)
(** * The wire: the JSON text between the route and the client           *)
(* ===================================================================== *)

Module Wire.
Import JS Route.

(** A number of the payload, written by [JSON.stringify] inside
    [NextResponse.json] and read back by [response.json()]: NaN and the
    infinities are written as [null] ([None]), -0 as [0], and every
    other number as the shortest decimal text that reads back as the
    same binary64. *)
Definition json_number (x : number) : option number :=
  match x with
  | S754_nan | S754_infinity _ => None
  | S754_zero _ => Some (S754_zero false)
  | S754_finite _ _ _ => Some x
  end.

(** The objects of the payload as the client reads them; [None] when a
    coordinate arrives as [null], which the client's types
    ([lat: number], [lng: number]) do not have.  Strings arrive as they
    are, and a key whose value is [undefined] is left out, which reads
    back as [undefined]. *)
Definition json_TrackingData (c : TrackingData) : option TrackingData :=
  match json_number (lat c), json_number (lng c) with
  | Some la, Some lo =>
      Some {| lat := la; lng := lo; station := station c;
              event := event c; speed := speed c |}
  | _, _ => None
  end.

Definition json_HistoryPoint (p : HistoryPoint) : option HistoryPoint :=
  match json_number (h_lat p), json_number (h_lng p) with
  | Some la, Some lo =>
      Some {| h_lat := la; h_lng := lo; h_timestamp := h_timestamp p;
              h_station := h_station p; h_event := h_event p;
              h_speed := h_speed p |}
  | _, _ => None
  end.

Fixpoint json_history (l : list HistoryPoint) : option (list HistoryPoint) :=
  match l with
  | [] => Some []
  | p :: r =>
      match json_HistoryPoint p, json_history r with
      | Some p', Some r' => Some (p' :: r')
      | _, _ => None
      end
  end.

Definition json_snapshot (d : TrackingApiResponse)
  : option TrackingApiResponse :=
  match json_TrackingData (current d), json_history (history d) with
  | Some c, Some h => Some {| current := c; history := h |}
  | _, _ => None
  end.

Definition json_body (b : Body) : option Body :=
  match b with
  | ErrorBody m => Some (ErrorBody m)
  | Snapshot d => option_map Snapshot (json_snapshot d)
  end.

End Wire.

(* ===================================================================== *)
(** * The vocabulary of the specification                                *)
(* ===================================================================== *)

Module Spec.
Import JS Route.

(** ** Movement detector *)

(** "|a - b| > eps": the absolute difference, as computed, compares
    greater than the tolerance. *)
Definition exceeds_tolerance (a b : number) : Prop :=
  SFcompare (SFabs (SFsub prec emax a b)) COORDINATE_TOLERANCE = Some Gt.

(** The binary64 value that the literal [0.0001] denotes:
    7378697629483821 * 2^-66. *)
Definition one_e_minus_4 : number :=
  S754_finite false 7378697629483821 (-66).

(** [x] is a value binary64 has: NaN, an infinity, a zero, or a finite
    value whose mantissa and exponent are the canonical ones. *)
Definition binary64 (x : number) : Prop :=
  valid_binary prec emax x = true.

(** "x > 1e-4" on binary64 values: the IEEE comparison with the value
    of the literal; it does not hold when [x] is NaN. *)
Definition above_1e_4 (x : number) : Prop :=
  SFcompare x one_e_minus_4 = Some Gt.

(** "|a - b| > 1e-4", the difference and its absolute value being
    computed in binary64. *)
Definition differ_by_more_than_1e_4 (a b : number) : Prop :=
  above_1e_4 (SFabs (SFsub prec emax a b)).

(** The real number that [x] stands for is greater than 1/10000: for
    the finite value [m * 2^e], by cross multiplication in the
    integers. *)
Definition real_above_1e_4 (x : number) : Prop :=
  match x with
  | S754_infinity false => True
  | S754_finite false m e =>
      (2 ^ Z.max 0 (- e) < Z.pos m * 10000 * 2 ^ Z.max 0 e)%Z
  | _ => False
  end.

(** [x] is a positive binary64 value at most half a unit in the last
    place away from the fraction [num / den]. *)
Definition nearest_binary64 (x : number) (num den : Z) : Prop :=
  valid_binary prec emax x = true /\
  match x with
  | S754_finite false m e =>
      (2 * Z.abs (Z.pos m * den * 2 ^ Z.max 0 e - num * 2 ^ Z.max 0 (- e))
       <= den * 2 ^ Z.max 0 e)%Z
  | _ => False
  end.

(** ** Annotation sub-fields *)

Definition no_line_terminator (cap : jsstring) : Prop :=
  forallb (fun c => negb (is_line_terminator c)) cap = true.

(** The pattern occurs somewhere in the annotation. *)
Definition found (label html : jsstring) : Prop :=
  exists pre cap post,
    html = pre ++ label ++ cap ++ close_tag ++ post /\
    no_line_terminator cap.

(** [v] is the text between the leftmost occurrence of the label that
    can be completed and the first closing tag after it. *)
Definition captured (label html v : jsstring) : Prop :=
  exists pre post,
    html = pre ++ label ++ v ++ close_tag ++ post /\
    no_line_terminator v /\
    (forall pre' v' post',
        html = pre' ++ label ++ v' ++ close_tag ++ post' ->
        no_line_terminator v' -> length pre <= length pre') /\
    (forall v' post',
        v ++ close_tag ++ post = v' ++ close_tag ++ post' ->
        length v <= length v').

(** A sub-field is the captured text, or the sentinel "N/A" when the
    pattern is not found. *)
Definition sub_field (label html v : jsstring) : Prop :=
  captured label html v \/ (~ found label html /\ v = lit "N/A").

(** ** Coordinate fields *)

Definition is_digit (c : code_unit) : bool := N.leb 48 c && N.leb c 57.

(** The text, after white space and a sign, starts like a number:
    [Infinity], a digit, or a dot and a digit. *)
Definition starts_number (s : jsstring) : bool :=
  let r := snd (parse_sign (trim_start s)) in
  match strip_prefix (lit "Infinity") r with
  | Some _ => true
  | None =>
      match r with
      | c :: r' =>
          is_digit c
          || (N.eqb c 46 && match r' with d :: _ => is_digit d | [] => false end)
      | [] => false
      end
  end.

(** A coordinate field that is absent or not numeric. *)
Definition non_numeric (v : option jsstring) : Prop :=
  match v with
  | None => True
  | Some s => starts_number s = false
  end.

(** A decimal number without sign or exponent: digits, or digits, a
    dot and digits, where one of the two groups may be empty but not
    both. *)
Definition decimal_text (s : jsstring) : Prop :=
  exists ip fp,
    forallb is_digit ip = true /\ forallb is_digit fp = true /\
    ((ip <> [] /\ s = ip) \/
     ((ip <> [] \/ fp <> []) /\ s = ip ++ lit "." ++ fp)).

(** Text that cannot continue a decimal number: it is empty, or starts
    with something other than a digit, a dot or an exponent letter. *)
Definition junk_start (s : jsstring) : bool :=
  match s with
  | [] => true
  | c :: _ => negb (is_digit c || N.eqb c 46 || N.eqb c 101 || N.eqb c 69)
  end.

(** ** Phases of a call *)

(** The request carries no usable id. *)
Definition missing_id (w : world) : Prop :=
  exists v, request_json w = inr v /\ truthy v = false.

(** The body of the request cannot be read: [request.json()] rejects (no
    body, or text that is not JSON) or the destructuring of [locoId]
    throws (the body is [null]); [e] is what is thrown. *)
Definition unreadable_body (w : world) (e : thrown) : Prop :=
  request_json w = inl e.

(** No id reaches the handler with the request. *)
Definition carries_no_id (w : world) : Prop :=
  match request_json w with
  | inr v => truthy v = false
  | inl _ => True
  end.

(** The request carries the id [id]. *)
Definition has_id (w : world) (id : jsstring) : Prop :=
  request_json w = inr (Some id) /\ truthy_str id = true.

(** The telemetry source answers, with [data]. *)
Definition source_answers (w : world) (id : jsstring) (data : FoisData)
  : Prop :=
  has_id w id /\
  exists resp,
    fetch w (apiUrl id) = inr resp /\ ok resp = true /\ json resp = inr data.

(** The source reports zero rows, or no rows at all. *)
Definition zero_rows (data : FoisData) : Prop :=
  is_zero_rows (RowCont data) = true \/ LocoDtls data = None.

(** The call gets past the telemetry steps with the first row [row] and
    its annotation [html]. *)
Definition telemetry_read (w : world) (id : jsstring) (row : LocoDtl)
    (html : jsstring) : Prop :=
  exists data rest,
    source_answers w id data /\
    is_zero_rows (RowCont data) = false /\
    LocoDtls data = Some (row :: rest) /\
    PopUpMsg row = Some html.

(** The store connects and lists. *)
Definition store_up (w : world) : Prop :=
  dbConnect w = None /\ find_fails w = None.

(** The insert, if attempted, succeeds. *)
Definition insert_ok (w : world) : bool :=
  match create_fails w with None => true | Some _ => false end.

(** A failure of the telemetry source or an internal failure: whatever
    is thrown inside the outer [try] of the handler once the id has
    been read. *)
Inductive failure (w : world) : Prop :=
| Fail_fetch id e :
    has_id w id -> fetch w (apiUrl id) = inl e -> failure w
| Fail_status id resp :
    has_id w id -> fetch w (apiUrl id) = inr resp -> ok resp = false ->
    failure w
| Fail_json id resp e :
    has_id w id -> fetch w (apiUrl id) = inr resp -> ok resp = true ->
    json resp = inl e -> failure w
| Fail_no_row id data :
    source_answers w id data -> is_zero_rows (RowCont data) = false ->
    LocoDtls data = Some [] -> failure w
| Fail_no_annotation id data row rest :
    source_answers w id data -> is_zero_rows (RowCont data) = false ->
    LocoDtls data = Some (row :: rest) -> PopUpMsg row = None -> failure w
| Fail_connect id row html e :
    telemetry_read w id row html -> dbConnect w = Some e -> failure w
| Fail_find id row html e :
    telemetry_read w id row html -> dbConnect w = None ->
    find_fails w = Some e -> failure w.

Definition snapshot_response (cur : TrackingData) (h : list HistoryPoint)
  : Response :=
  NextResponse_json (Snapshot {| current := cur; history := h |}) 200.

(** No operation of the log touches the store. *)
Definition no_store_op (l : list op) : Prop :=
  forallb (fun o => negb (is_store_op o)) l = true.

(** What one call adds to the collection is at most one document. *)
Definition persists_at_most_one (w : world) (c : list LocoData) : Prop :=
  coll (snd (call w c)) = c \/
  exists d, coll (snd (call w c)) = c ++ [d].

(** The documents stored for [id] were created no later than [t]. *)
Definition created_by (t : Z) (id : jsstring) (c : list LocoData) : Prop :=
  forall d,
    In d c -> str_eqb (d_locoId d) id = true ->
    createdAt_leb (d_createdAt d) (Some t) = true.

(** The last element of the returned history. *)
Definition last_of {A} (l : list A) : option A :=
  nth_error l (length l - 1).

(** A history element lies at the position of the current point. *)
Definition holds_position (p : HistoryPoint) (cur : TrackingData) : Prop :=
  h_lat p = lat cur /\ h_lng p = lng cur.

(** ** Tracking session *)

(** The intervals the runtime holds are those the component accounts
    for: none while tracking is off; while it is on, the one the ref
    points to, polling the current id, and the form is not loading. *)
Definition well_timed (s : Page.state) : Prop :=
  match Page.timers s with
  | [] => Page.isTracking s = false
  | [(t, id)] =>
      Page.isTracking s = true /\ Page.intervalRef s = Some t /\
      id = Page.locoId s /\ Page.isLoading s = false
  | _ => False
  end.

(** The state a trace of events leads to from the initial state (the
    initial state itself when the trace cannot happen). *)
Definition after (tr : list Page.event) : Page.state :=
  match Page.run Page.init tr with
  | Some s => s
  | None => Page.init
  end.

(** ** Sample inputs *)

Definition popup : jsstring :=
  lit "Station: <b>NDLS</b> Event: <b>ARR</b> Speed: <b>40</b>".

Definition row_at (la lo : option jsstring) : LocoDtl :=
  {| PopUpMsg := Some popup; Lttd := la; Lgtd := lo |}.

Definition loco : jsstring := lit "37875".

(** A world in which every step goes through, except the insert when
    [create] says so. *)
Definition world_of (row : LocoDtl) (create : option thrown) (t : Z)
  : world :=
  {| request_json := inr (Some loco);
     fetch := fun _ =>
       inr {| ok := true; status := 200;
              json := inr {| RowCont := Some (lit "1");
                             LocoDtls := Some [row] |} |};
     dbConnect := None;
     find_fails := None;
     create_fails := create;
     clock_create := t;
     clock_reply := t;
     toLocaleString := fun z => nat_to_str (Z.to_N z) |}.

Definition store_down : thrown := ErrorObj (lit "connection refused").

(** The request names no locomotive. *)
Definition world_no_id : world :=
  {| request_json := inr (Some []);
     fetch := fetch (world_of (row_at None None) None 0);
     dbConnect := None; find_fails := None; create_fails := None;
     clock_create := 0; clock_reply := 0;
     toLocaleString := fun z => nat_to_str (Z.to_N z) |}.

(** The request has no body. *)
Definition world_no_body : world :=
  {| request_json := inl (ErrorObj (lit "Unexpected end of JSON input"));
     fetch := fetch (world_of (row_at None None) None 0);
     dbConnect := None; find_fails := None; create_fails := None;
     clock_create := 0; clock_reply := 0;
     toLocaleString := fun z => nat_to_str (Z.to_N z) |}.

(** The source knows no such locomotive. *)
Definition world_zero_rows : world :=
  {| request_json := inr (Some loco);
     fetch := fun _ =>
       inr {| ok := true; status := 200;
              json := inr {| RowCont := Some (lit "0");
                             LocoDtls := None |} |};
     dbConnect := None; find_fails := None; create_fails := None;
     clock_create := 0; clock_reply := 0;
     toLocaleString := fun z => nat_to_str (Z.to_N z) |}.

(** The source is out of service. *)
Definition world_source_down : world :=
  {| request_json := inr (Some loco);
     fetch := fun _ =>
       inr {| ok := false; status := 503; json := inl OtherValue |};
     dbConnect := None; find_fails := None; create_fails := None;
     clock_create := 0; clock_reply := 0;
     toLocaleString := fun z => nat_to_str (Z.to_N z) |}.

Definition at_delhi : LocoDtl :=
  row_at (Some (lit "28.61")) (Some (lit "77.20")).

Definition further_on : LocoDtl :=
  row_at (Some (lit "28.62")) (Some (lit "77.21")).

Definition data_of (row : LocoDtl) : TrackingData :=
  currentData_of row (parsePopupMsg popup).

Definition point_at (la lo : string) : TrackingData :=
  data_of (row_at (Some (lit la)) (Some (lit lo))).

(** The document stored for [loco] at a position, created at time 0. *)
Definition doc_at (la lo : string) : LocoData :=
  new_doc loco (point_at la lo) (Some 0%Z).

(** The store along the scenario of the specification: empty, then
    after a first poll at (28.61, 77.20), a second one at the same
    coordinates, and a third one at (28.62, 77.21). *)
Definition scenario_store (n : nat) : list LocoData :=
  match n with
  | 0 => []
  | 1 => coll (snd (call (world_of at_delhi None 1000) []))
  | 2 => coll (snd (call (world_of at_delhi None 2000)
                         (coll (snd (call (world_of at_delhi None 1000)
                                          [])))))
  | _ => coll (snd (call (world_of further_on None 3000)
                (coll (snd (call (world_of at_delhi None 2000)
                   (coll (snd (call (world_of at_delhi None 1000)
                                    []))))))))
  end.

(** Two answers of the route, at different positions. *)
Definition snapshot_a : TrackingApiResponse :=
  {| current := point_at "28.61" "77.20"; history := [] |}.

Definition snapshot_b : TrackingApiResponse :=
  {| current := point_at "28.62" "77.21"; history := [] |}.

Definition answer (d : TrackingApiResponse) : Page.outcome :=
  Page.Replied true (Snapshot d).

(** Track, first answer, a tick that stays in flight. *)
Definition polling_trace : list Page.event :=
  [Page.Submit; Page.Settle 0 (answer snapshot_a); Page.Tick 0].

(** The same, then Stop. *)
Definition stop_trace : list Page.event :=
  polling_trace ++ [Page.Submit].

(** Stop while a tick is in flight, Track, the tick settles and frees
    the button, Track again, the first Track settles, Stop: the second
    Track is still in flight. *)
Definition double_start_trace : list Page.event :=
  stop_trace
  ++ [Page.Submit; Page.Settle 0 (answer snapshot_a); Page.Submit;
      Page.Settle 0 (answer snapshot_a); Page.Submit].

End Spec.

(* ===================================================================== *)
(** * Further vocabulary: the store, the wire, the map                   *)
(* ===================================================================== *)

Module Terms.
Import JS Route Spec.

(** The operations of one call come in this order, each at most once:
    the fetch, the connection, the listing, the insert; the insert is
    for the id that was listed. *)
Definition in_order (l : list op) : bool :=
  match l with
  | [] => true
  | [OpFetch _] => true
  | [OpFetch _; OpConnect] => true
  | [OpFetch _; OpConnect; OpFind _] => true
  | [OpFetch _; OpConnect; OpFind id; OpCreate d] =>
      str_eqb (d_locoId d) id
  | _ => false
  end.

(** The documents of a collection that belong to [id]. *)
Definition docs_of (id : jsstring) (c : list LocoData) : list LocoData :=
  filter (fun d => str_eqb (d_locoId d) id) c.

(** [a] was created no later than [b]. *)
Definition not_after (a b : LocoData) : Prop :=
  createdAt_leb (d_createdAt a) (d_createdAt b) = true.

(** A number other than NaN and the infinities. *)
Definition finite (x : number) : Prop :=
  match x with
  | S754_zero _ | S754_finite _ _ _ => True
  | _ => False
  end.

(** In [s], the pattern [p] occurs at the very end and nowhere before. *)
Definition only_at_end (p s : jsstring) : Prop :=
  forall a b, s = a ++ p ++ b -> b = [].

(** [response.ok]: the status is in the range 200 to 299. *)
Definition response_ok (r : Response) : bool :=
  N.leb 200 (r_status r) && N.leb (r_status r) 299.

(** How an answer of the route reaches [fetchData]: the flag
    [response.ok] and the body read back from its JSON text; [None]
    when a coordinate of the body arrives as [null]. *)
Definition reply (r : Response) : option Page.outcome :=
  option_map (Page.Replied (response_ok r)) (Wire.json_body (r_body r)).

(** Every coordinate of the snapshot is a finite number. *)
Definition finite_snapshot (d : TrackingApiResponse) : Prop :=
  finite (lat (current d)) /\ finite (lng (current d)) /\
  Forall (fun p => finite (h_lat p) /\ finite (h_lng p)) (history d).

(** Two history points, and two snapshots, that hold the same texts and
    numbers that are equal for [===] (the same but for the sign of a
    zero). *)
Definition same_point (p q : HistoryPoint) : Prop :=
  MapView.strict_eq (h_lat p) (h_lat q) = true /\
  MapView.strict_eq (h_lng p) (h_lng q) = true /\
  h_timestamp p = h_timestamp q /\ h_station p = h_station q /\
  h_event p = h_event q /\ h_speed p = h_speed q.

Definition same_snapshot (d d' : TrackingApiResponse) : Prop :=
  MapView.strict_eq (lat (current d)) (lat (current d')) = true /\
  MapView.strict_eq (lng (current d)) (lng (current d')) = true /\
  station (current d) = station (current d') /\
  event (current d) = event (current d') /\
  speed (current d) = speed (current d') /\
  Forall2 same_point (history d) (history d').

(** Whether [p] occurs in [s] with something after it; [early_free]
    is true when it does not. *)
Fixpoint early_free (p s : jsstring) : bool :=
  match s with
  | [] => true
  | _ :: r =>
      match strip_prefix p s with
      | Some (_ :: _) => false
      | _ => early_free p r
      end
  end.

(** A history point lies at the current position, for [===]. *)
Definition coincides (cur : TrackingData) (p : HistoryPoint) : bool :=
  MapView.strict_eq (h_lat p) (lat cur)
  && MapView.strict_eq (h_lng p) (lng cur).

(** A document of another locomotive. *)
Definition other_doc : LocoData :=
  new_doc (lit "12345") (point_at "19.07" "72.87") (Some 500%Z).

(** The poll a tick or a submit sends for the id in the input. *)
Definition poll_for (s : Page.state) (tracking : bool) : Page.poll :=
  {| Page.q_locoId := trim (Page.locoId s); Page.q_isTracking := tracking |}.

(** Track, first answer, then [n] ticks none of which is answered. *)
Definition burst_trace (n : nat) : list Page.event :=
  [Page.Submit; Page.Settle 0 (answer snapshot_a)] ++ repeat (Page.Tick 0) n.

End Terms.

(* ===================================================================== *)
(** * Facts about strings                                                *)
(* ===================================================================== *)

Module JSFacts.
Import JS.

Lemma str_eqb_refl (s : jsstring) : str_eqb s s = true.
Proof.
  induction s as [|x s IH]; simpl; [reflexivity|].
  now rewrite N.eqb_refl.
Qed.

Lemma str_eqb_eq (a b : jsstring) : str_eqb a b = true -> a = b.
Proof.
  revert b. induction a as [|x a IH]; intros [|y b] H; simpl in H;
    try discriminate; [reflexivity|].
  apply andb_prop in H as [Hx Hr]. apply N.eqb_eq in Hx.
  f_equal; [exact Hx|now apply IH].
Qed.

Lemma strip_prefix_app (p r : jsstring) : strip_prefix p (p ++ r) = Some r.
Proof.
  induction p as [|x p IH]; simpl; [reflexivity|].
  now rewrite N.eqb_refl.
Qed.

Lemma strip_prefix_inv (p s r : jsstring) :
  strip_prefix p s = Some r -> s = p ++ r.
Proof.
  revert s. induction p as [|x p IH]; intros s H; simpl in H.
  - now inversion H.
  - destruct s as [|y s]; [discriminate|].
    destruct (N.eqb_spec x y) as [->|]; [|discriminate].
    simpl. f_equal. now apply IH.
Qed.

End JSFacts.

(* ===================================================================== *)
(** * Properties of the route                                            *)
(* ===================================================================== *)

Module RouteFacts.
Import JS Route Spec JSFacts.

(** ** Comparing and subtracting binary64 values *)

Lemma SFcompare_swap (x y : number) :
  SFcompare y x = option_map CompOpp (SFcompare x y).
Proof.
  destruct x as [sx|sx| |sx mx ex], y as [sy|sy| |sy my ey]; simpl;
    try reflexivity;
    try (destruct sx; reflexivity); try (destruct sy; reflexivity);
    try (destruct sx, sy; reflexivity).
  destruct sx, sy; simpl; try reflexivity;
    rewrite (Z.compare_antisym ex ey);
    destruct (ex ?= ey)%Z; simpl; try reflexivity;
    change (Pos.compare_cont Eq my mx)
      with (Pos.compare_cont (CompOpp Eq) my mx);
    rewrite <- (Pos.compare_cont_antisym mx my Eq);
    try rewrite CompOpp_involutive; reflexivity.
Qed.

Lemma gt_iff (x y : number) : gt x y = true <-> SFcompare x y = Some Gt.
Proof.
  unfold gt, SFltb. rewrite (SFcompare_swap x y).
  destruct (SFcompare x y) as [[| |]|]; simpl; split; congruence.
Qed.

(** [x - x] is [+0], or NaN when [x] is infinite or NaN. *)
Lemma sub_diag (x : number) :
  sub x x = S754_zero false \/ sub x x = NaN.
Proof.
  destruct x as [s|s| |s m e]; unfold sub, NaN.
  - left. destruct s; reflexivity.
  - right. destruct s; reflexivity.
  - right. reflexivity.
  - left. cbn [SFsub]. rewrite Z.sub_diag. reflexivity.
Qed.

Lemma abs_sub_diag_within (x : number) :
  gt (Math_abs (sub x x)) COORDINATE_TOLERANCE = false.
Proof.
  destruct (sub_diag x) as [-> | ->]; reflexivity.
Qed.

Lemma hasMoved_same_position (r : LocoData) (p : TrackingData) :
  d_lat r = lat p -> d_lng r = lng p -> hasMoved (Some r) p = false.
Proof.
  intros Hlat Hlng. unfold hasMoved. rewrite Hlat, Hlng.
  now rewrite !abs_sub_diag_within.
Qed.

Lemma hasMoved_iff (r : LocoData) (p : TrackingData) :
  hasMoved (Some r) p = true <->
  exceeds_tolerance (d_lat r) (lat p) \/ exceeds_tolerance (d_lng r) (lng p).
Proof.
  unfold hasMoved, exceeds_tolerance. rewrite orb_true_iff, !gt_iff.
  reflexivity.
Qed.

(** The tolerance is the binary64 nearest to 0.0001. *)
Example tolerance_value :
  COORDINATE_TOLERANCE = S754_finite false 7378697629483821 (-66).
Proof. reflexivity. Qed.

(** A difference of exactly the tolerance is not movement; the next
    larger difference is. *)
Example boundary_below :
  hasMoved (Some (doc_at "0" "0")) (point_at "0.0001" "0") = false.
Proof. vm_compute. reflexivity. Qed.

Example boundary_above :
  hasMoved (Some (doc_at "0" "0")) (point_at "0.00010000000000000003" "0")
  = true.
Proof. vm_compute. reflexivity. Qed.

(** The decimal distance 28.61 - 28.6099 is 0.0001, but the computed
    difference of the two binary64 values falls below the tolerance. *)
Example boundary_rounding :
  hasMoved (Some (doc_at "28.6099" "77.20")) (point_at "28.61" "77.20")
  = false.
Proof. vm_compute. reflexivity. Qed.

(** *** The tolerance, in exact arithmetic *)

Lemma hasMoved_1e_4 (r : LocoData) (p : TrackingData) :
  hasMoved (Some r) p = true <->
  differ_by_more_than_1e_4 (d_lat r) (lat p) \/
  differ_by_more_than_1e_4 (d_lng r) (lng p).
Proof.
  unfold hasMoved, differ_by_more_than_1e_4, above_1e_4.
  rewrite orb_true_iff, !gt_iff. reflexivity.
Qed.

Lemma digits2_pos_bounds (m : positive) :
  (2 ^ (Z.pos (digits2_pos m) - 1) <= Z.pos m < 2 ^ Z.pos (digits2_pos m))%Z.
Proof.
  induction m as [m IH|m IH|]; cbn [digits2_pos].
  - rewrite Pos2Z.inj_succ.
    replace (Z.succ (Z.pos (digits2_pos m)) - 1)%Z
      with (Z.succ (Z.pos (digits2_pos m) - 1)) by lia.
    rewrite !Z.pow_succ_r by lia. lia.
  - rewrite Pos2Z.inj_succ.
    replace (Z.succ (Z.pos (digits2_pos m)) - 1)%Z
      with (Z.succ (Z.pos (digits2_pos m) - 1)) by lia.
    rewrite !Z.pow_succ_r by lia. lia.
  - cbn. lia.
Qed.

(** A mantissa that is canonical for its exponent has at most 53
    digits, and exactly 53 above the smallest exponent. *)
Lemma bounded_mantissa (m : positive) (e : Z) :
  bounded prec emax m e = true ->
  (Z.pos m < 2 ^ 53)%Z /\ ((-1074 < e)%Z -> (2 ^ 52 <= Z.pos m)%Z).
Proof.
  unfold bounded, canonical_mantissa, fexp, emin, prec, emax.
  intros H. apply andb_prop in H as [H _]. apply Z.eqb_eq in H.
  pose proof (digits2_pos_bounds m) as [Hlo Hhi].
  split.
  - apply Z.lt_le_trans with (1 := Hhi).
    apply Z.pow_le_mono_r; lia.
  - intros He.
    replace (Z.pos (digits2_pos m)) with 53%Z in Hlo by lia.
    exact Hlo.
Qed.

(** *** Computed differences are binary64 values *)

Section Rounding.
Local Open Scope Z_scope.

Lemma digits2_pos_le (m : positive) (k : Z) :
  Z.pos m < 2 ^ k -> Z.pos (digits2_pos m) <= k.
Proof.
  intros H. pose proof (digits2_pos_bounds m) as [Hlo _].
  destruct (Z.le_gt_cases (Z.pos (digits2_pos m)) k) as [|Hgt]; [assumption|].
  exfalso.
  destruct (Z.le_gt_cases 0 k) as [Hk|Hk].
  - assert (2 ^ k <= 2 ^ (Z.pos (digits2_pos m) - 1))
      by (apply Z.pow_le_mono_r; lia). lia.
  - rewrite Z.pow_neg_r in H by lia. lia.
Qed.

Lemma digits2_pos_ge (m : positive) (k : Z) :
  2 ^ k <= Z.pos m -> k + 1 <= Z.pos (digits2_pos m).
Proof.
  intros H. pose proof (digits2_pos_bounds m) as [_ Hhi].
  destruct (Z.le_gt_cases (k + 1) (Z.pos (digits2_pos m))) as [|Hlt];
    [assumption|]. exfalso.
  assert (2 ^ Z.pos (digits2_pos m) <= 2 ^ k)
    by (apply Z.pow_le_mono_r; lia). lia.
Qed.

Lemma iter_xO (m d : positive) :
  Z.pos (Pos.iter xO m d) = Z.pos m * 2 ^ Z.pos d.
Proof.
  induction d as [|d IH] using Pos.peano_ind.
  - cbn. lia.
  - rewrite Pos.iter_succ, Pos2Z.inj_succ, Z.pow_succ_r by lia.
    rewrite (Pos2Z.inj_xO (Pos.iter xO m d)), IH. lia.
Qed.

Lemma shr_1_m (mrs : shr_record) :
  0 <= shr_m mrs -> shr_m (shr_1 mrs) = shr_m mrs / 2.
Proof.
  destruct mrs as [m r s]. cbn [shr_m shr_1].
  destruct m as [|[p|p|]|p]; cbn [shr_m]; intros H; try lia.
  - reflexivity.
  - rewrite (Pos2Z.inj_xI p). apply Z.div_unique with 1; lia.
  - rewrite (Pos2Z.inj_xO p). apply Z.div_unique with 0; lia.
  - reflexivity.
Qed.

Lemma iter_shr_1_m (p : positive) (mrs : shr_record) :
  0 <= shr_m mrs ->
  shr_m (iter_pos shr_1 p mrs) = shr_m mrs / 2 ^ Z.pos p.
Proof.
  revert mrs. induction p as [p IH|p IH|]; intros mrs H; cbn [iter_pos].
  - assert (H1 : 0 <= shr_m (shr_1 mrs))
      by (rewrite shr_1_m by assumption; apply Z.div_pos; lia).
    assert (H2 : 0 <= shr_m (iter_pos shr_1 p (shr_1 mrs)))
      by (rewrite IH by assumption; apply Z.div_pos; [lia|apply Z.pow_pos_nonneg; lia]).
    rewrite IH by assumption. rewrite IH by assumption.
    rewrite shr_1_m by assumption.
    rewrite !Z.div_div by (try apply Z.pow_pos_nonneg; lia).
    f_equal. rewrite (Pos2Z.inj_xI p).
    replace (2 * Z.pos p + 1) with (1 + Z.pos p + Z.pos p) by lia.
    rewrite !Z.pow_add_r by lia. lia.
  - assert (H2 : 0 <= shr_m (iter_pos shr_1 p mrs))
      by (rewrite IH by assumption; apply Z.div_pos; [lia|apply Z.pow_pos_nonneg; lia]).
    rewrite IH by assumption. rewrite IH by assumption.
    rewrite !Z.div_div by (try apply Z.pow_pos_nonneg; lia).
    f_equal. rewrite (Pos2Z.inj_xO p).
    replace (2 * Z.pos p) with (Z.pos p + Z.pos p) by lia.
    rewrite !Z.pow_add_r by lia. lia.
  - rewrite shr_1_m by assumption. reflexivity.
Qed.

Lemma round_nearest_even_cases (q : Z) (l : location) :
  round_nearest_even q l = q \/ round_nearest_even q l = q + 1.
Proof.
  destruct l as [|[| |]]; cbn; auto. destruct (Z.even q); auto.
Qed.

Lemma fexp_eq (x : Z) : fexp prec emax x = Z.max (x - 53) (-1074).
Proof. reflexivity. Qed.

Lemma finite_valid (sx : bool) (m : positive) (e : Z) :
  fexp prec emax (Z.pos (digits2_pos m) + e) = e ->
  valid_binary prec emax
    (if e <=? emax - prec then S754_finite sx m e else S754_infinity sx) = true.
Proof.
  intros H. destruct (e <=? emax - prec) eqn:E; [|reflexivity].
  cbn [valid_binary]. unfold bounded, canonical_mantissa.
  rewrite H, Z.eqb_refl, E. reflexivity.
Qed.

Lemma second_shift_valid (sx : bool) (m1 t : Z) :
  0 <= m1 <= 2 ^ 53 -> -1074 <= t -> (t = -1074 \/ 2 ^ 52 <= m1) ->
  valid_binary prec emax
    (let '(mrs'', e'') :=
       shr {| shr_m := m1; shr_r := false; shr_s := false |} t
           (fexp prec emax (Zdigits2 m1 + t) - t) in
     match shr_m mrs'' with
     | 0 => S754_zero sx
     | Z.pos m =>
         if e'' <=? emax - prec then S754_finite sx m e''
         else S754_infinity sx
     | Z.neg _ => S754_nan
     end) = true.
Proof.
  intros [H0 Hhi] Ht Hcase. rewrite fexp_eq.
  change (2 ^ 53) with 9007199254740992 in Hhi.
  change (2 ^ 52) with 4503599627370496 in Hcase.
  destruct m1 as [|m|m]; [| |lia].
  - cbn [Zdigits2].
    destruct (Z.max (0 + t - 53) (-1074) - t) as [|p|p] eqn:En;
      [reflexivity|lia|reflexivity].
  - cbn [Zdigits2].
    destruct (Z.eq_dec (Z.pos m) 9007199254740992) as [E|E].
    + assert (m = 9007199254740992%positive) by lia. subst m.
      change (Z.pos (digits2_pos 9007199254740992)) with 54.
      replace (Z.max (54 + t - 53) (-1074) - t) with 1 by lia.
      cbn [shr iter_pos shr_1 shr_m].
      apply finite_valid.
      change (Z.pos (digits2_pos 4503599627370496)) with 53.
      rewrite fexp_eq. lia.
    + assert (Hd : Z.pos (digits2_pos m) <= 53)
        by (apply digits2_pos_le;
            change (2 ^ 53) with 9007199254740992; lia).
      assert (Hd' : t = -1074 \/ Z.pos (digits2_pos m) = 53).
      { destruct Hcase as [?|Hc]; [now left|right].
        pose proof (@digits2_pos_ge m 52 Hc). lia. }
      replace (Z.max (Z.pos (digits2_pos m) + t - 53) (-1074) - t)
        with 0 by lia.
      cbn [shr shr_m]. apply finite_valid. rewrite fexp_eq. lia.
Qed.

Lemma binary_round_aux_valid (sx : bool) (mz : positive) (ez : Z) :
  ez <= fexp prec emax (Z.pos (digits2_pos mz) + ez) ->
  valid_binary prec emax
    (binary_round_aux prec emax sx (Z.pos mz) ez loc_Exact) = true.
Proof.
  intros Hle. unfold binary_round_aux, shr_fexp.
  cbn [Zdigits2 shr_record_of_loc].
  pose proof (digits2_pos_bounds mz) as [Hlo Hhi].
  set (dg := Z.pos (digits2_pos mz)) in *.
  assert (Hdg : 0 < dg) by (unfold dg; lia).
  rewrite fexp_eq in *.
  destruct (Z.max (dg + ez - 53) (-1074) - ez) as [|p|p] eqn:En; [| |lia].
  - cbn [shr shr_m loc_of_shr_record round_nearest_even Zdigits2].
    fold dg. rewrite fexp_eq, En. cbn [shr shr_m].
    apply finite_valid. fold dg. rewrite fexp_eq. lia.
  - cbn [shr].
    set (mrs := iter_pos shr_1 p _).
    assert (Hq : shr_m mrs = Z.pos mz / 2 ^ Z.pos p)
      by (unfold mrs; now rewrite iter_shr_1_m).
    assert (H2p : 0 < 2 ^ Z.pos p) by (apply Z.pow_pos_nonneg; lia).
    assert (Hq0 : 0 <= shr_m mrs)
      by (rewrite Hq; apply Z.div_pos; lia).
    assert (Hbounds : shr_m mrs < 2 ^ 53 /\
                      (ez + Z.pos p = -1074 /\ shr_m mrs < 2 ^ 52 \/
                       2 ^ 52 <= shr_m mrs)).
    { rewrite Hq.
      destruct (Z.le_gt_cases (-1074) (dg + ez - 53)) as [HA|HB].
      - assert (Hp : Z.pos p = dg - 53) by lia.
        split; [|right].
        + apply Z.div_lt_upper_bound; [lia|].
          rewrite <- Z.pow_add_r by lia.
          replace (Z.pos p + 53) with dg by lia. exact Hhi.
        + apply Z.div_le_lower_bound; [lia|].
          rewrite <- Z.pow_add_r by lia.
          replace (Z.pos p + 52) with (dg - 1) by lia. exact Hlo.
      - assert (Hlt : Z.pos mz / 2 ^ Z.pos p < 2 ^ 52).
        { apply Z.div_lt_upper_bound; [lia|].
          rewrite <- Z.pow_add_r by lia.
          apply Z.lt_le_trans with (1 := Hhi).
          apply Z.pow_le_mono_r; lia. }
        split; [|left; split; [lia|exact Hlt]].
        change (2 ^ 52) with 4503599627370496 in Hlt.
        change (2 ^ 53) with 9007199254740992. lia. }
    destruct Hbounds as [Hb1 Hb2].
    change (2 ^ 52) with 4503599627370496 in Hb2.
    change (2 ^ 53) with 9007199254740992 in Hb1.
    destruct (round_nearest_even_cases (shr_m mrs) (loc_of_shr_record mrs))
      as [Hr|Hr]; rewrite Hr; clear Hr;
      apply second_shift_valid;
      change (2 ^ 52) with 4503599627370496;
      change (2 ^ 53) with 9007199254740992; lia.
Qed.

Lemma binary_round_valid (sx : bool) (mx : positive) (ex : Z) :
  valid_binary prec emax (binary_round prec emax sx mx ex) = true.
Proof.
  unfold binary_round, shl_align.
  set (t := fexp prec emax (Z.pos (digits2_pos mx) + ex)).
  destruct (t - ex) as [|d|d] eqn:Ed.
  - apply binary_round_aux_valid. fold t. lia.
  - apply binary_round_aux_valid. fold t. lia.
  - apply binary_round_aux_valid.
    assert (Hdig : Z.pos (digits2_pos (Pos.iter xO mx d))
                   = Z.pos (digits2_pos mx) + Z.pos d).
    { pose proof (digits2_pos_bounds mx) as [Hlo Hhi].
      pose proof (iter_xO mx d) as Hm.
      assert (H2d : 0 < 2 ^ Z.pos d) by (apply Z.pow_pos_nonneg; lia).
      apply Z.le_antisymm.
      - apply digits2_pos_le. rewrite Hm, Z.pow_add_r by lia. nia.
      - replace (Z.pos (digits2_pos mx) + Z.pos d)
          with (Z.pos (digits2_pos mx) - 1 + Z.pos d + 1) by lia.
        apply digits2_pos_ge. rewrite Hm, Z.pow_add_r by lia. nia. }
    rewrite Hdig.
    replace (Z.pos (digits2_pos mx) + Z.pos d + t)
      with (Z.pos (digits2_pos mx) + ex) by lia.
    fold t. lia.
Qed.

Lemma binary_normalize_valid (m e : Z) (s : bool) :
  valid_binary prec emax (binary_normalize prec emax m e s) = true.
Proof.
  destruct m; cbn [binary_normalize]; [reflexivity| |];
    apply binary_round_valid.
Qed.

Lemma SFsub_valid (x y : spec_float) :
  valid_binary prec emax x = true -> valid_binary prec emax y = true ->
  valid_binary prec emax (SFsub prec emax x y) = true.
Proof.
  destruct x as [sx|sx| |sx mx ex], y as [sy|sy| |sy my ey];
    intros Hx Hy; cbn [SFsub]; try reflexivity; try assumption;
    try (destruct sx, sy; reflexivity).
  apply binary_normalize_valid.
Qed.

Lemma SFabs_valid (x : spec_float) :
  valid_binary prec emax x = true ->
  valid_binary prec emax (SFabs x) = true.
Proof. destruct x; intros H; exact H. Qed.

End Rounding.

Lemma difference_binary64 (a b : number) :
  binary64 a -> binary64 b -> binary64 (Math_abs (sub a b)).
Proof.
  intros Ha Hb. apply SFabs_valid. now apply SFsub_valid.
Qed.

(** On the values binary64 has, comparing with the literal is comparing
    the real numbers: [x] is above the tolerance exactly when it stands
    for more than 1/10000 and is not the value of the literal itself
    (which lies a little above 1/10000, nothing between them). *)
Lemma above_1e_4_real (x : number) :
  binary64 x ->
  (above_1e_4 x <-> real_above_1e_4 x /\ x <> one_e_minus_4).
Proof.
  unfold binary64, above_1e_4, one_e_minus_4.
  destruct x as [s|s| |s m e]; cbn [valid_binary real_above_1e_4 SFcompare];
    intros Hv.
  - split; [destruct s; discriminate|intros [[] _]].
  - destruct s; split; try discriminate; try (intros [[] _]).
    + intros _. split; [exact I|discriminate].
    + reflexivity.
  - split; [discriminate|intros [[] _]].
  - destruct s; [split; [discriminate|intros [[] _]]|].
    destruct (bounded_mantissa _ _ Hv) as [Hhi Hlo].
    destruct (Z.compare_spec e (-66)) as [He|He|He].
    + subst e. change (Z.max 0 (- -66)) with 66%Z.
      change (Z.max 0 (-66)) with 0%Z.
      change (2 ^ 66)%Z with 73786976294838206464%Z.
      change (2 ^ 0)%Z with 1%Z.
      pose proof (Pos.compare_gt_iff m 7378697629483821) as Hc.
      unfold Pos.compare in Hc.
      split.
      * intros H. assert (Hgt : (7378697629483821 < m)%positive)
          by (apply Hc; congruence).
        split; [lia|]. intros E. inversion E. lia.
      * intros [Hval Hne]. f_equal. apply Hc.
        assert (m <> 7378697629483821%positive) by congruence. lia.
    + split; [discriminate|]. intros [Hval _]. exfalso.
      rewrite Z.max_r in Hval by lia. rewrite (Z.max_l 0 e) in Hval by lia.
      change (2 ^ 0)%Z with 1%Z in Hval.
      assert (Hp : (2 ^ 67 <= 2 ^ (- e))%Z)
        by (apply Z.pow_le_mono_r; lia).
      change (2 ^ 67)%Z with 147573952589676412928%Z in Hp.
      change (2 ^ 53)%Z with 9007199254740992%Z in Hhi. lia.
    + split; [intros _|reflexivity].
      split; [|intros E; inversion E; lia].
      specialize (Hlo ltac:(lia)).
      change (2 ^ 52)%Z with 4503599627370496%Z in Hlo.
      destruct (Z.le_gt_cases 0 e) as [Hpos|Hneg].
      * rewrite Z.max_l by lia. rewrite (Z.max_r 0 e) by lia.
        change (2 ^ 0)%Z with 1%Z.
        assert (0 < 2 ^ e)%Z by (apply Z.pow_pos_nonneg; lia). nia.
      * rewrite Z.max_r by lia. rewrite (Z.max_l 0 e) by lia.
        change (2 ^ 0)%Z with 1%Z.
        assert (Hp : (2 ^ (- e) <= 2 ^ 65)%Z)
          by (apply Z.pow_le_mono_r; lia).
        change (2 ^ 65)%Z with 36893488147419103232%Z in Hp. lia.
Qed.

Lemma one_e_minus_4_nearest : nearest_binary64 one_e_minus_4 1 10000.
Proof.
  split; [reflexivity|]. cbn. lia.
Qed.

(** C5. The movement detector answers true when there is no last known
    position; otherwise it answers true exactly when the absolute
    difference of the latitudes or of the longitudes, computed in
    binary64, is greater than 1e-4, that is, than the binary64 value of
    the literal 0.0001 (7378697629483821 * 2^-66, the value nearest to
    1/10000); for any two binary64 coordinates this means: the computed
    difference stands for more than 1/10000 and is not that value.  The
    inequality is strict: differences of exactly 1e-4 are not movement,
    the next larger value is; and a position compared with itself
    never is. *)
Theorem movement_detector_rule :
  (forall p, hasMoved None p = true) /\
  (forall r p,
      hasMoved (Some r) p = true <->
      differ_by_more_than_1e_4 (d_lat r) (lat p) \/
      differ_by_more_than_1e_4 (d_lng r) (lng p)) /\
  nearest_binary64 one_e_minus_4 1 10000 /\
  (forall a b,
      binary64 a -> binary64 b ->
      (differ_by_more_than_1e_4 a b <->
       real_above_1e_4 (Math_abs (sub a b)) /\
       Math_abs (sub a b) <> one_e_minus_4)) /\
  (forall r p,
      Math_abs (sub (d_lat r) (lat p)) = one_e_minus_4 ->
      Math_abs (sub (d_lng r) (lng p)) = one_e_minus_4 ->
      hasMoved (Some r) p = false) /\
  (forall r p,
      Math_abs (sub (d_lat r) (lat p))
        = S754_finite false 7378697629483822 (-66) ->
      hasMoved (Some r) p = true) /\
  (forall r p,
      d_lat r = lat p -> d_lng r = lng p -> hasMoved (Some r) p = false).
Proof.
  split; [reflexivity|].
  split; [exact hasMoved_1e_4|].
  split; [exact one_e_minus_4_nearest|].
  split.
  { intros a b Ha Hb. apply above_1e_4_real.
    now apply difference_binary64. }
  split; [|split; [|exact hasMoved_same_position]].
  - intros r p Hlat Hlng. unfold hasMoved. now rewrite Hlat, Hlng.
  - intros r p Hlat. unfold hasMoved. now rewrite Hlat.
Qed.

(** The rule at sample positions: a first sighting; the same position
    again; coordinates 0.0001 away, whose computed difference is the
    value of the literal; a difference one unit in the last place above
    it; and the computed difference of 28.62 and 28.61, a binary64
    value like every computed difference. *)
Lemma movement_detector_rule_witness :
  hasMoved None (point_at "28.61" "77.20") = true /\
  hasMoved (Some (doc_at "28.61" "77.20")) (point_at "28.61" "77.20") = false /\
  hasMoved (Some (doc_at "0.0001" "0.0001")) (point_at "0" "0") = false /\
  hasMoved (Some (doc_at "0.00010000000000000002" "0")) (point_at "0" "0")
    = true /\
  (differ_by_more_than_1e_4 (parseFloat (lit "28.62"))
                            (parseFloat (lit "28.61")) <->
   real_above_1e_4 (Math_abs (sub (parseFloat (lit "28.62"))
                                  (parseFloat (lit "28.61")))) /\
   Math_abs (sub (parseFloat (lit "28.62")) (parseFloat (lit "28.61")))
     <> one_e_minus_4).
Proof.
  destruct movement_detector_rule
    as (Hnone & _ & _ & Hreal & Hexact & Hnext & Hsame).
  split; [exact (Hnone (point_at "28.61" "77.20"))|].
  split; [apply Hsame; reflexivity|].
  split; [apply Hexact; vm_compute; reflexivity|].
  split; [apply Hnext; vm_compute; reflexivity|].
  apply Hreal; reflexivity.
Defined.

(** ** The pattern matcher *)

Lemma lazy_capture_eq (s : jsstring) :
  lazy_capture s =
  match strip_prefix close_tag s with
  | Some _ => Some []
  | None =>
      match s with
      | [] => None
      | c :: r =>
          if is_line_terminator c then None
          else option_map (cons c) (lazy_capture r)
      end
  end.
Proof. destruct s; reflexivity. Qed.

Lemma regex_match_eq (label s : jsstring) :
  regex_match label s =
  match match_here label s with
  | Some cap => Some cap
  | None => match s with [] => None | _ :: r => regex_match label r end
  end.
Proof. destruct s; reflexivity. Qed.

(** What the lazy group takes ends in front of a closing tag, holds no
    line terminator, and is the shortest such text. *)
Lemma lazy_capture_sound (s cap : jsstring) :
  lazy_capture s = Some cap ->
  exists post,
    s = cap ++ close_tag ++ post /\ no_line_terminator cap /\
    forall cap' post',
      s = cap' ++ close_tag ++ post' -> length cap <= length cap'.
Proof.
  revert cap.
  induction s as [|c s IH]; intros cap H; rewrite lazy_capture_eq in H.
  - destruct (strip_prefix close_tag []) as [r|] eqn:E; [|discriminate].
    apply strip_prefix_inv in E. inversion H; subst. exists r.
    repeat split; [exact E|]. intros; simpl; lia.
  - destruct (strip_prefix close_tag (c :: s)) as [r|] eqn:E.
    + apply strip_prefix_inv in E. inversion H; subst. exists r.
      repeat split; [exact E|]. intros; simpl; lia.
    + destruct (is_line_terminator c) eqn:Hc; [discriminate|].
      destruct (lazy_capture s) as [cap0|] eqn:E0; [|discriminate].
      inversion H; subst.
      destruct (IH cap0 eq_refl) as (post & -> & Hn & Hmin).
      exists post. split; [reflexivity|]. split.
      * unfold no_line_terminator. simpl. now rewrite Hc.
      * intros [|c' cap'] post' Heq.
        -- rewrite app_nil_l in Heq. rewrite Heq, strip_prefix_app in E.
           discriminate.
        -- rewrite <- app_comm_cons in Heq. inversion Heq as [[Hc' Hs]].
           simpl. apply le_n_S. now apply (Hmin cap' post').
Qed.

Lemma lazy_capture_complete (cap post : jsstring) :
  no_line_terminator cap ->
  lazy_capture (cap ++ close_tag ++ post) <> None.
Proof.
  induction cap as [|c cap IH]; intros Hn; rewrite lazy_capture_eq.
  - rewrite app_nil_l. now rewrite strip_prefix_app.
  - destruct (strip_prefix close_tag ((c :: cap) ++ close_tag ++ post));
      [discriminate|].
    unfold no_line_terminator in Hn. simpl in Hn.
    apply andb_prop in Hn as [Hc Hn]. apply negb_true_iff in Hc.
    rewrite <- app_comm_cons. rewrite Hc.
    destruct (lazy_capture (cap ++ close_tag ++ post)); [discriminate|].
    now exfalso; apply (IH Hn).
Qed.

Lemma match_here_complete (label cap post : jsstring) :
  no_line_terminator cap ->
  match_here label (label ++ cap ++ close_tag ++ post) <> None.
Proof.
  intros Hn. unfold match_here. rewrite strip_prefix_app.
  now apply lazy_capture_complete.
Qed.

Lemma match_here_sound (label s cap : jsstring) :
  match_here label s = Some cap -> captured label s cap.
Proof.
  unfold match_here. intros H.
  destruct (strip_prefix label s) as [r|] eqn:E; [|discriminate].
  apply strip_prefix_inv in E.
  apply lazy_capture_sound in H as (post & -> & Hn & Hmin).
  exists [], post. repeat split.
  - exact E.
  - exact Hn.
  - intros; simpl; lia.
  - exact Hmin.
Qed.

Lemma regex_match_sound (label s cap : jsstring) :
  regex_match label s = Some cap -> captured label s cap.
Proof.
  induction s as [|c s IH]; rewrite regex_match_eq.
  - destruct (match_here label []) as [cap'|] eqn:E; [|discriminate].
    intros H; inversion H; subst. now apply match_here_sound.
  - destruct (match_here label (c :: s)) as [cap'|] eqn:E.
    + intros H; inversion H; subst. now apply match_here_sound.
    + intros H. destruct (IH H) as (pre & post & -> & Hn & Hleft & Hmin).
      exists (c :: pre), post. repeat split; [exact Hn| |exact Hmin].
      intros [|c' pre'] v' post' Heq Hn'.
      * rewrite app_nil_l in Heq. rewrite Heq in E.
        now apply match_here_complete in E.
      * rewrite <- !app_comm_cons in Heq. inversion Heq as [[Hc' Hs]].
        simpl. apply le_n_S. now apply (Hleft pre' v' post').
Qed.

Lemma regex_match_complete (label s : jsstring) :
  found label s -> regex_match label s <> None.
Proof.
  intros (pre & cap & post & -> & Hn).
  induction pre as [|c pre IH]; rewrite regex_match_eq.
  - rewrite app_nil_l.
    destruct (match_here label _) eqn:E; [discriminate|].
    now apply match_here_complete in E.
  - rewrite <- app_comm_cons.
    destruct (match_here label _); [discriminate|exact IH].
Qed.

Lemma regex_match_field (label html : jsstring) :
  sub_field label html
    (match regex_match label html with Some m1 => m1 | None => NA end).
Proof.
  destruct (regex_match label html) as [cap|] eqn:E.
  - left. now apply regex_match_sound.
  - right. split; [|reflexivity].
    intros Hf. now apply regex_match_complete in Hf.
Qed.

(** A captured text is found, so the two cases of a sub-field exclude
    each other. *)
Lemma captured_found (label html v : jsstring) :
  captured label html v -> found label html.
Proof.
  intros (pre & post & Heq & Hn & _). now exists pre, v, post.
Qed.

Example popup_parsed :
  parsePopupMsg popup =
  {| p_station := lit "NDLS"; p_event := lit "ARR"; p_speed := lit "40" |}.
Proof. reflexivity. Qed.

(** A label without its closing tag on the same line is not a match;
    the other sub-fields are read all the same. *)
Example popup_partial :
  parsePopupMsg (lit "Station: <b>NDLS Event: <b>DEP</b>
Speed: <b>12")
  = {| p_station := lit "NDLS Event: <b>DEP";
       p_event := lit "DEP"; p_speed := lit "N/A" |}.
Proof. reflexivity. Qed.

(** A line terminator before the closing tag breaks the match. *)
Example popup_broken_line :
  parsePopupMsg (lit "Station: <b>NDLS
</b> Speed: <b>40</b>")
  = {| p_station := lit "N/A"; p_event := lit "N/A"; p_speed := lit "40" |}.
Proof. reflexivity. Qed.

Example popup_empty :
  parsePopupMsg [] =
  {| p_station := lit "N/A"; p_event := lit "N/A"; p_speed := lit "N/A" |}.
Proof. reflexivity. Qed.

(** C9. For every annotation string the parser returns a record whose
    station, event and speed are each determined by their own pattern
    alone: the text captured by the leftmost match of that pattern, or
    the sentinel "N/A" when the pattern is not found; a missing
    sub-field never makes the parse fail. *)
Theorem parsePopupMsg_sub_fields (html : jsstring) :
  sub_field (lit "Station: <b>") html (p_station (parsePopupMsg html)) /\
  sub_field (lit "Event: <b>") html (p_event (parsePopupMsg html)) /\
  sub_field (lit "Speed: <b>") html (p_speed (parsePopupMsg html)).
Proof.
  unfold parsePopupMsg; cbn [p_station p_event p_speed].
  repeat split; apply regex_match_field.
Qed.

(** ** Running the handler *)

Ltac handler_steps :=
  cbv beta iota zeta delta
    [call POST bind try_catch lift ret throw log do_fetch do_dbConnect
     do_find do_create read_of negb orb andb truthy to_string nth_error
     coll ops app fst snd].

(** A call that reads the telemetry and reaches the store answers 200
    with a snapshot; the collection grows by the new document exactly
    when movement was detected and the insert went through. *)
Lemma POST_reconciles (w : world) (id : jsstring) (row : LocoDtl)
    (html : jsstring) (c : list LocoData) :
  telemetry_read w id row html -> store_up w ->
  let cur := currentData_of row (parsePopupMsg html) in
  let recs := find_sorted id c in
  let moved := hasMoved (lastRecord recs) cur in
  let saved := moved && insert_ok w in
  call w c =
  (inr (snapshot_response cur (finalHistory w recs cur moved saved)),
   {| coll := if saved
              then c ++ [new_doc id cur (Some (clock_create w))]
              else c;
      ops := [OpFetch (apiUrl id); OpConnect; OpFind id]
             ++ (if moved then [OpCreate (new_doc id cur None)] else []) |}).
Proof.
  intros (data & rest & ((Hreq & Hid) & resp & Hf & Hok & Hj) & Hz & Hrows
          & Hpop) [Hdb Hfind].
  intros cur recs moved saved.
  subst saved moved recs cur. unfold insert_ok.
  handler_steps. rewrite Hreq. handler_steps. rewrite Hid. handler_steps.
  rewrite Hf. handler_steps. rewrite Hok. handler_steps.
  rewrite Hj. handler_steps. rewrite Hz, Hrows. handler_steps.
  rewrite Hpop. handler_steps. rewrite Hdb. handler_steps.
  rewrite Hfind. handler_steps.
  destruct (hasMoved _ _); handler_steps; [|reflexivity].
  destruct (create_fails w); reflexivity.
Qed.

Lemma world_of_reads (la lo : option jsstring) (create : option thrown)
    (t : Z) :
  telemetry_read (world_of (row_at la lo) create t) loco (row_at la lo) popup.
Proof.
  exists {| RowCont := Some (lit "1"); LocoDtls := Some [row_at la lo] |}, [].
  repeat split.
  exists {| ok := true; status := 200;
            json := inr {| RowCont := Some (lit "1");
                           LocoDtls := Some [row_at la lo] |} |}.
  repeat split.
Qed.

Lemma world_of_store_up (row : LocoDtl) (create : option thrown) (t : Z) :
  store_up (world_of row create t).
Proof. split; reflexivity. Qed.


Lemma lastRecord_snoc (l : list LocoData) (d : LocoData) :
  lastRecord (l ++ [d]) = Some d.
Proof.
  unfold lastRecord. rewrite length_app. simpl.
  replace (length l + 1 - 1) with (length l) by lia.
  destruct (Nat.ltb_spec 0 (length l + 1)) as [_|H]; [|lia].
  rewrite nth_error_app2 by lia. now rewrite Nat.sub_diag.
Qed.

Lemma lastRecord_some (l : list LocoData) :
  l <> [] -> exists l' d, l = l' ++ [d] /\ lastRecord l = Some d.
Proof.
  intros H. destruct (exists_last H) as (l' & d & ->).
  exists l', d. split; [reflexivity|apply lastRecord_snoc].
Qed.

(** ** Empty stored history *)

(** C1. On an empty collection, a poll whose insert fails answers 200
    with an empty history: the point that was read is in [current]
    only. *)
Theorem empty_history_failed_insert :
  call (world_of at_delhi (Some store_down) 1000) [] =
  (inr (snapshot_response (data_of at_delhi) []),
   {| coll := [];
      ops := [OpFetch (apiUrl loco); OpConnect; OpFind loco;
              OpCreate (new_doc loco (data_of at_delhi) None)] |}).
Proof. vm_compute. reflexivity. Qed.




(** ** A failed insert *)

(** C2, as stated, fails: the locomotive moved beyond the tolerance, the
    insert is refused, and the history of the answer is the stored trail
    without the current point. *)
Lemma failed_insert_omits_current_point :
  hasMoved (lastRecord (find_sorted loco [doc_at "28.61" "77.20"]))
           (data_of further_on) = true /\
  insert_ok (world_of further_on (Some store_down) 2000) = false /\
  fst (call (world_of further_on (Some store_down) 2000)
            [doc_at "28.61" "77.20"]) =
    inr (snapshot_response (data_of further_on)
           (map (toHistoryPoint (world_of further_on (Some store_down) 2000))
                [doc_at "28.61" "77.20"])) /\
  ~ In (currentPoint (world_of further_on (Some store_down) 2000)
                     (data_of further_on))
       (map (toHistoryPoint (world_of further_on (Some store_down) 2000))
            [doc_at "28.61" "77.20"]).
Proof.
  split; [vm_compute; reflexivity|].
  split; [reflexivity|].
  split; [vm_compute; reflexivity|].
  intros [H|[]]. vm_compute in H. discriminate H.
Qed.

(** C2, amended. When movement is detected and the insert fails, the
    call still answers 200 with a snapshot of the current point, and the
    collection is left as it was; when the stored history is not empty,
    the returned history is that stored history, without the current
    point. *)
Theorem failed_insert_is_not_fatal (w : world) (id : jsstring)
    (row : LocoDtl) (html : jsstring) (c : list LocoData) :
  telemetry_read w id row html -> store_up w ->
  hasMoved (lastRecord (find_sorted id c))
           (currentData_of row (parsePopupMsg html)) = true ->
  insert_ok w = false ->
  exists h s',
    call w c =
      (inr (snapshot_response (currentData_of row (parsePopupMsg html)) h),
       s') /\
    coll s' = c /\
    (find_sorted id c <> [] ->
     h = map (toHistoryPoint w) (find_sorted id c)).
Proof.
  intros Hread Hup Hmoved Hins.
  rewrite (POST_reconciles c Hread Hup). rewrite Hmoved, Hins.
  eexists. eexists. split; [reflexivity|].
  split; [reflexivity|].
  intros _. reflexivity.
Qed.

Lemma failed_insert_is_not_fatal_witness :
  exists h s',
    call (world_of further_on (Some store_down) 2000)
         [doc_at "28.61" "77.20"] =
      (inr (snapshot_response (data_of further_on) h), s') /\
    coll s' = [doc_at "28.61" "77.20"] /\
    (find_sorted loco [doc_at "28.61" "77.20"] <> [] ->
     h = map (toHistoryPoint (world_of further_on (Some store_down) 2000))
             (find_sorted loco [doc_at "28.61" "77.20"])).
Proof.
  apply (@failed_insert_is_not_fatal
           (world_of further_on (Some store_down) 2000) loco further_on
           popup [doc_at "28.61" "77.20"]).
  - apply world_of_reads.
  - apply world_of_store_up.
  - vm_compute. reflexivity.
  - reflexivity.
Defined.

(** ** No movement on a stored trail *)

Lemma last_of_map_snoc {A B} (f : A -> B) (l : list A) (d : A) :
  last_of (map f (l ++ [d])) = Some (f d).
Proof.
  unfold last_of. rewrite map_app, length_app. simpl.
  rewrite nth_error_app2 by lia.
  replace (length (map f l) + 1 - 1 - length (map f l)) with 0 by lia.
  reflexivity.
Qed.

(** C6, as stated, fails: the second poll of the scenario reads the
    position that is already stored; nothing is appended, and the last
    element of the returned history lies at the current position. *)
Lemma unmoved_last_element_at_current_position :
  hasMoved (lastRecord (find_sorted loco [doc_at "28.61" "77.20"]))
           (data_of at_delhi) = false /\
  exists p,
    fst (call (world_of at_delhi None 2000) [doc_at "28.61" "77.20"]) =
      inr (snapshot_response (data_of at_delhi) [p]) /\
    last_of [p] = Some p /\
    holds_position p (data_of at_delhi).
Proof.
  split; [vm_compute; reflexivity|].
  eexists. split; [vm_compute; reflexivity|].
  split; [reflexivity|]. split; reflexivity.
Qed.

(** C6, amended. When the stored history is not empty and no movement
    is detected, nothing is written and the returned history is the
    stored trail alone, of the same length; its last element is the
    last stored record, whose position is within the tolerance of the
    current position and may coincide with it. *)
Theorem unmoved_returns_stored_trail (w : world) (id : jsstring)
    (row : LocoDtl) (html : jsstring) (c : list LocoData) :
  telemetry_read w id row html -> store_up w ->
  find_sorted id c <> [] ->
  hasMoved (lastRecord (find_sorted id c))
           (currentData_of row (parsePopupMsg html)) = false ->
  let cur := currentData_of row (parsePopupMsg html) in
  let h := map (toHistoryPoint w) (find_sorted id c) in
  call w c =
    (inr (snapshot_response cur h),
     {| coll := c; ops := [OpFetch (apiUrl id); OpConnect; OpFind id] |}) /\
  length h = length (find_sorted id c) /\
  exists r,
    lastRecord (find_sorted id c) = Some r /\
    last_of h = Some (toHistoryPoint w r) /\
    ~ exceeds_tolerance (d_lat r) (lat cur) /\
    ~ exceeds_tolerance (d_lng r) (lng cur).
Proof.
  intros Hread Hup Hne Hstill cur h. subst cur h.
  split.
  - rewrite (POST_reconciles c Hread Hup). rewrite Hstill.
    cbn [andb]. unfold finalHistory, select_arm. cbn [andb negb].
    rewrite length_map.
    destruct (find_sorted id c); [contradiction|reflexivity].
  - split; [apply length_map|].
    destruct (lastRecord_some Hne) as (l' & r & Heq & Hlast).
    exists r. split; [exact Hlast|].
    split; [rewrite Heq; apply last_of_map_snoc|].
    rewrite Hlast in Hstill.
    assert (Hnot : ~ (exceeds_tolerance (d_lat r)
                        (lat (currentData_of row (parsePopupMsg html))) \/
                      exceeds_tolerance (d_lng r)
                        (lng (currentData_of row (parsePopupMsg html))))).
    { rewrite <- hasMoved_iff. congruence. }
    tauto.
Qed.

Lemma unmoved_returns_stored_trail_witness :
  call (world_of at_delhi None 2000) [doc_at "28.61" "77.20"] =
    (inr (snapshot_response (data_of at_delhi)
            (map (toHistoryPoint (world_of at_delhi None 2000))
                 (find_sorted loco [doc_at "28.61" "77.20"]))),
     {| coll := [doc_at "28.61" "77.20"];
        ops := [OpFetch (apiUrl loco); OpConnect; OpFind loco] |}).
Proof.
  refine (proj1 (@unmoved_returns_stored_trail
                   (world_of at_delhi None 2000) loco at_delhi popup
                   [doc_at "28.61" "77.20"] _ _ _ _)).
  - apply world_of_reads.
  - apply world_of_store_up.
  - vm_compute. discriminate.
  - vm_compute. reflexivity.
Defined.

(** ** Coordinates that are not numbers *)

Lemma span_digits_not_digit (c : code_unit) (r : jsstring) :
  is_digit c = false -> span_digits (c :: r) = ([], c :: r).
Proof.
  intros H. cbn [span_digits]. unfold digit_val.
  unfold is_digit in H. now rewrite H.
Qed.

Lemma span_digits_no_leading_digit (r : jsstring) :
  match r with d :: _ => is_digit d | [] => false end = false ->
  span_digits r = ([], r).
Proof.
  destruct r as [|d r]; [reflexivity|]. apply span_digits_not_digit.
Qed.

Lemma parse_unsigned_non_numeric (neg : bool) (r : jsstring) :
  strip_prefix (lit "Infinity") r = None ->
  match r with
  | c :: r' =>
      is_digit c
      || (N.eqb c 46 && match r' with d :: _ => is_digit d | [] => false end)
  | [] => false
  end = false ->
  parse_unsigned neg r = NaN.
Proof.
  intros Hinf H. unfold parse_unsigned. rewrite Hinf.
  destruct r as [|c r']; [reflexivity|].
  apply orb_false_iff in H as [Hc Hdot].
  rewrite (@span_digits_not_digit c r' Hc).
  change (lit ".") with [46%N]. cbn [strip_prefix].
  rewrite N.eqb_sym.
  destruct (N.eqb c 46); [|reflexivity].
  cbn [andb] in Hdot. now rewrite (@span_digits_no_leading_digit r' Hdot).
Qed.

Lemma parseFloat_non_numeric (s : jsstring) :
  starts_number s = false -> parseFloat s = NaN.
Proof.
  unfold starts_number, parseFloat.
  destruct (parse_sign (trim_start s)) as [neg r]. cbn [snd].
  destruct (strip_prefix (lit "Infinity") r) eqn:Hinf; [discriminate|].
  now apply parse_unsigned_non_numeric.
Qed.

Lemma parseFloat_field_non_numeric (v : option jsstring) :
  non_numeric v -> parseFloat_field v = NaN.
Proof.
  destruct v as [s|]; cbn [non_numeric parseFloat_field].
  - apply parseFloat_non_numeric.
  - intros _. reflexivity.
Qed.

Example parseFloat_samples :
  parseFloat (lit "28.61") = S754_finite false 8052999083691868 (-48) /\
  parseFloat (lit " -7.5e1 km") = S754_finite true 5277655813324800 (-46) /\
  parseFloat (lit "abc") = NaN /\
  parseFloat (lit "") = NaN /\
  parseFloat (lit ".") = NaN /\
  parseFloat_field None = NaN.
Proof. repeat split; vm_compute; reflexivity. Qed.

(** C3, as stated, fails: the latitude is absent and the longitude is
    text, a trail is stored; the call does not fail, it answers 200
    with a current point whose coordinates are NaN (which never
    compares as moved, so nothing is written). *)
Lemma malformed_coordinates_are_accepted :
  non_numeric (Lttd (row_at None (Some (lit "abc")))) /\
  non_numeric (Lgtd (row_at None (Some (lit "abc")))) /\
  call (world_of (row_at None (Some (lit "abc"))) None 2000)
       [doc_at "28.61" "77.20"] =
    (inr (snapshot_response
            {| lat := NaN; lng := NaN; station := lit "NDLS";
               event := lit "ARR"; speed := lit "40" |}
            [toHistoryPoint (world_of (row_at None (Some (lit "abc")))
                                      None 2000)
                            (doc_at "28.61" "77.20")]),
     {| coll := [doc_at "28.61" "77.20"];
        ops := [OpFetch (apiUrl loco); OpConnect; OpFind loco] |}).
Proof.
  split; [exact I|]. split; [reflexivity|]. vm_compute. reflexivity.
Qed.

(** *** A number followed by other text *)

Lemma is_digit_range (c : code_unit) :
  is_digit c = true -> (48 <= c <= 57)%N.
Proof.
  unfold is_digit. intros H. apply andb_prop in H as [H1 H2].
  apply N.leb_le in H1, H2. lia.
Qed.

Lemma digit_val_digit (c : code_unit) :
  is_digit c = true -> digit_val c = Some (Z.of_N (c - 48)).
Proof.
  unfold is_digit, digit_val. now intros ->.
Qed.

(** A text that starts with a digit or a dot has no white space, no
    sign and no [Infinity] in front. *)
Lemma parseFloat_starts (c : code_unit) (r : jsstring) :
  is_digit c = true \/ c = 46%N ->
  strip_prefix (lit "Infinity") (c :: r) = None /\
  parseFloat (c :: r) = parse_unsigned false (c :: r).
Proof.
  intros H.
  assert (Hws : is_white_space c || is_line_terminator c = false).
  { destruct H as [H| ->]; [|reflexivity].
    apply is_digit_range in H.
    unfold is_white_space, is_line_terminator.
    repeat match goal with
           | |- context [N.eqb c ?k] =>
               destruct (N.eqb_spec c k); [lia|]
           end.
    destruct (N.leb_spec 8192 c); [lia|]. reflexivity. }
  assert (H43 : N.eqb c 43 = false).
  { destruct H as [H| ->]; [|reflexivity].
    apply is_digit_range in H. apply N.eqb_neq. lia. }
  assert (H45 : N.eqb c 45 = false).
  { destruct H as [H| ->]; [|reflexivity].
    apply is_digit_range in H. apply N.eqb_neq. lia. }
  assert (H73 : N.eqb 73 c = false).
  { destruct H as [H| ->]; [|reflexivity].
    apply is_digit_range in H. apply N.eqb_neq. lia. }
  split.
  - change (lit "Infinity") with (73%N :: lit "nfinity").
    cbn [strip_prefix]. now rewrite H73.
  - unfold parseFloat. cbn [trim_start]. rewrite Hws.
    unfold parse_sign. now rewrite H43, H45.
Qed.

(** The digits of a text that is all digits are read to its end, also
    when something that is not a digit follows. *)
Lemma span_digits_app (ds junk : jsstring) :
  forallb is_digit ds = true ->
  match junk with [] => true | c :: _ => negb (is_digit c) end = true ->
  span_digits (ds ++ junk) = (fst (span_digits ds), junk) /\
  span_digits ds = (fst (span_digits ds), []).
Proof.
  intros Hds Hj. induction ds as [|d ds IH].
  - rewrite app_nil_l. split; [|reflexivity].
    destruct junk as [|c r]; [reflexivity|].
    apply negb_true_iff in Hj. now apply span_digits_not_digit.
  - cbn [forallb] in Hds. apply andb_prop in Hds as [Hd Hds].
    destruct (IH Hds) as [IH1 IH2].
    rewrite <- app_comm_cons. cbn [span_digits].
    rewrite (digit_val_digit _ Hd), IH1, IH2. split; reflexivity.
Qed.

Lemma junk_start_no_digit (junk : jsstring) :
  junk_start junk = true ->
  match junk with [] => true | c :: _ => negb (is_digit c) end = true.
Proof.
  destruct junk as [|c r]; [reflexivity|]. cbn [junk_start].
  rewrite !negb_orb. intros H.
  now repeat (apply andb_prop in H as [H _]).
Qed.

Lemma junk_start_no_dot (junk : jsstring) :
  junk_start junk = true -> strip_prefix (lit ".") junk = None.
Proof.
  destruct junk as [|c r]; [reflexivity|]. cbn [junk_start].
  rewrite !negb_orb. intros H.
  apply andb_prop in H as [H _]. apply andb_prop in H as [H _].
  apply andb_prop in H as [_ H]. apply negb_true_iff in H.
  change (lit ".") with [46%N]. cbn [strip_prefix].
  rewrite N.eqb_sym. now rewrite H.
Qed.

Lemma junk_start_no_exponent (junk : jsstring) :
  junk_start junk = true -> parse_exponent junk = 0%Z.
Proof.
  destruct junk as [|c r]; [reflexivity|]. cbn [junk_start].
  rewrite !negb_orb. intros H.
  apply andb_prop in H as [H H69]. apply andb_prop in H as [_ H101].
  apply negb_true_iff in H69, H101.
  cbn [parse_exponent]. now rewrite H69, H101.
Qed.

(** [parseFloat] reads the longest numeric prefix: what follows a
    decimal number and cannot continue it is ignored. *)
Lemma parseFloat_junk (num junk : jsstring) :
  decimal_text num -> junk_start junk = true ->
  parseFloat (num ++ junk) = parseFloat num.
Proof.
  intros (ip & fp & Hip & Hfp & Hnum) Hj.
  pose proof (junk_start_no_digit _ Hj) as Hnd.
  destruct Hnum as [[Hne ->]|[_ ->]].
  - destruct ip as [|d ip']; [contradiction|].
    assert (Hd : is_digit d = true)
      by (cbn [forallb] in Hip; now apply andb_prop in Hip as [Hd _]).
    rewrite <- app_comm_cons.
    destruct (parseFloat_starts (ip' ++ junk) (or_introl Hd)) as [Hi1 ->].
    destruct (parseFloat_starts ip' (or_introl Hd)) as [Hi2 ->].
    unfold parse_unsigned. rewrite Hi1, Hi2.
    rewrite app_comm_cons.
    destruct (span_digits_app (d :: ip') junk Hip Hnd) as [-> ->].
    rewrite (junk_start_no_dot _ Hj), (junk_start_no_exponent _ Hj).
    reflexivity.
  - assert (Hstart : exists c r, ip ++ lit "." ++ fp = c :: r /\
                                 (is_digit c = true \/ c = 46%N)).
    { destruct ip as [|d ip'].
      - exists 46%N, fp. split; [reflexivity|now right].
      - exists d, (ip' ++ lit "." ++ fp). split; [reflexivity|].
        left. cbn [forallb] in Hip. now apply andb_prop in Hip as [Hd _]. }
    destruct Hstart as (c0 & r0 & Heq & Hc0).
    assert (Hinf1 : strip_prefix (lit "Infinity")
                      ((ip ++ lit "." ++ fp) ++ junk) = None /\
                    parseFloat ((ip ++ lit "." ++ fp) ++ junk) =
                    parse_unsigned false ((ip ++ lit "." ++ fp) ++ junk)).
    { rewrite Heq, <- app_comm_cons. now apply parseFloat_starts. }
    assert (Hinf2 : strip_prefix (lit "Infinity") (ip ++ lit "." ++ fp) = None
                    /\ parseFloat (ip ++ lit "." ++ fp) =
                       parse_unsigned false (ip ++ lit "." ++ fp)).
    { rewrite Heq. now apply parseFloat_starts. }
    destruct Hinf1 as [Hi1 ->]. destruct Hinf2 as [Hi2 ->].
    unfold parse_unsigned. rewrite Hi1, Hi2.
    rewrite <- !app_assoc.
    change (lit ".") with [46%N].
    change ([46%N] ++ fp ++ junk) with (46%N :: fp ++ junk).
    change ([46%N] ++ fp) with (46%N :: fp).
    destruct (span_digits_app ip (46%N :: fp ++ junk) Hip eq_refl)
      as [-> _].
    destruct (span_digits_app ip (46%N :: fp) Hip eq_refl) as [-> _].
    cbn [strip_prefix N.eqb Pos.eqb].
    destruct (span_digits_app fp junk Hfp Hnd) as [-> ->].
    rewrite (junk_start_no_exponent _ Hj). reflexivity.
Qed.

(** C3, amended. Coordinate fields that are absent or not numeric do not
    fail the poll: [parseFloat] is applied to each field and its result
    is never tested, so a call that reads the row and reaches the store
    answers with status 200 and a snapshot whose current point holds
    the values read.  A field that is absent, or whose text does not
    begin (after white space and a sign) with a digit, a dot and a
    digit, or [Infinity], is read as NaN, which the JSON body carries
    as [null]; a field made of a decimal number followed by text that
    cannot continue it is read as that number. *)
Theorem malformed_coordinates_become_NaN (w : world) (id : jsstring)
    (row : LocoDtl) (html : jsstring) (c : list LocoData) :
  telemetry_read w id row html -> store_up w ->
  exists r snap s',
    call w c = (inr r, s') /\
    r_status r = 200%N /\ r_body r = Snapshot snap /\
    current snap = currentData_of row (parsePopupMsg html) /\
    lat (current snap) = parseFloat_field (Lttd row) /\
    lng (current snap) = parseFloat_field (Lgtd row) /\
    (non_numeric (Lttd row) ->
     lat (current snap) = NaN /\
     Wire.json_number (lat (current snap)) = None) /\
    (non_numeric (Lgtd row) ->
     lng (current snap) = NaN /\
     Wire.json_number (lng (current snap)) = None) /\
    (forall num junk,
        Lttd row = Some (num ++ junk) ->
        decimal_text num -> junk_start junk = true ->
        lat (current snap) = parseFloat num) /\
    (forall num junk,
        Lgtd row = Some (num ++ junk) ->
        decimal_text num -> junk_start junk = true ->
        lng (current snap) = parseFloat num).
Proof.
  intros Hread Hup.
  rewrite (POST_reconciles c Hread Hup). unfold snapshot_response.
  eexists. eexists. eexists. split; [reflexivity|].
  cbn [NextResponse_json r_status r_body].
  do 5 (split; [reflexivity|]).
  cbn [current currentData_of lat lng].
  split; [|split; [|split]].
  - intros Hn. rewrite (parseFloat_field_non_numeric _ Hn).
    split; reflexivity.
  - intros Hn. rewrite (parseFloat_field_non_numeric _ Hn).
    split; reflexivity.
  - intros num junk -> Hnum Hj. now apply parseFloat_junk.
  - intros num junk -> Hnum Hj. now apply parseFloat_junk.
Qed.

(** Two readings: no latitude and the longitude "abc", on a stored
    trail; and the latitude "28,61", read as 28 and persisted. *)
Lemma malformed_coordinates_become_NaN_witness :
  (exists r snap s',
      call (world_of (row_at None (Some (lit "abc"))) None 2000)
           [doc_at "28.61" "77.20"] = (inr r, s') /\
      r_status r = 200%N /\ r_body r = Snapshot snap /\
      lat (current snap) = NaN /\
      Wire.json_number (lat (current snap)) = None /\
      lng (current snap) = NaN /\
      Wire.json_number (lng (current snap)) = None) /\
  (exists r snap s',
      call (world_of (row_at (Some (lit "28,61")) (Some (lit "77.20")))
                     None 1000) [] = (inr r, s') /\
      r_status r = 200%N /\ r_body r = Snapshot snap /\
      lat (current snap) = parseFloat (lit "28") /\
      coll s' = [new_doc loco (point_at "28" "77.20") (Some 1000%Z)]).
Proof.
  split.
  - destruct (@malformed_coordinates_become_NaN
                (world_of (row_at None (Some (lit "abc"))) None 2000) loco
                (row_at None (Some (lit "abc"))) popup
                [doc_at "28.61" "77.20"]
                (world_of_reads _ _ None 2000)
                (world_of_store_up _ None 2000))
      as (r & snap & s' & Hcall & Hst & Hbody & _ & _ & _ & Hlat & Hlng & _).
    exists r, snap, s'.
    destruct (Hlat I) as [Hlat1 Hlat2].
    destruct (Hlng eq_refl) as [Hlng1 Hlng2].
    repeat split; assumption.
  - destruct (@malformed_coordinates_become_NaN
                (world_of (row_at (Some (lit "28,61")) (Some (lit "77.20")))
                          None 1000) loco
                (row_at (Some (lit "28,61")) (Some (lit "77.20"))) popup []
                (world_of_reads _ _ None 1000)
                (world_of_store_up _ None 1000))
      as (r & snap & s' & Hcall & Hst & Hbody & _ & _ & _ & _ & _ & Hlat & _).
    exists r, snap, s'.
    split; [exact Hcall|]. split; [exact Hst|]. split; [exact Hbody|].
    split.
    + apply (Hlat (lit "28") (lit ",61")); [reflexivity| |reflexivity].
      exists (lit "28"), []. split; [reflexivity|]. split; [reflexivity|].
      left. split; [discriminate|reflexivity].
    + vm_compute in Hcall. inversion Hcall. reflexivity.
Defined.

(** ** What a call writes *)

(** Case analysis on the answers of the world, innermost first. *)
Ltac handler_cases :=
  repeat (handler_steps;
          match goal with
          | |- context [match ?x with _ => _ end] =>
              lazymatch x with
              | context [match _ with _ => _ end] => fail
              | _ => destruct x eqn:?
              end
          end);
  handler_steps.

(** Whatever the world answers, the handler returns a response: nothing
    thrown inside escapes it. *)
Lemma POST_returns (w : world) (c : list LocoData) :
  exists r s', call w c = (inr r, s').
Proof.
  handler_cases; eexists; eexists; reflexivity.
Qed.

Lemma call_persists_at_most_one (w : world) (c : list LocoData) :
  persists_at_most_one w c.
Proof.
  unfold persists_at_most_one.
  handler_cases;
    solve [ left; reflexivity | right; eexists; reflexivity ].
Qed.

(** ** Listing after an insert *)

Lemma insert_asc_snoc (x d : LocoData) (l : list LocoData) :
  createdAt_leb (d_createdAt x) (d_createdAt d) = true ->
  insert_asc x (l ++ [d]) = insert_asc x l ++ [d].
Proof.
  intros Hle. induction l as [|y l IH]; simpl.
  - now rewrite Hle.
  - destruct (createdAt_leb (d_createdAt x) (d_createdAt y));
      [reflexivity|]. now rewrite IH.
Qed.

(** A document at least as recent as all the others sorts last. *)
Lemma sort_asc_snoc (l : list LocoData) (d : LocoData) :
  (forall x, In x l ->
             createdAt_leb (d_createdAt x) (d_createdAt d) = true) ->
  sort_asc (l ++ [d]) = sort_asc l ++ [d].
Proof.
  induction l as [|x l IH]; intros H; [reflexivity|].
  change (sort_asc ((x :: l) ++ [d]))
    with (insert_asc x (sort_asc (l ++ [d]))).
  rewrite IH by (intros y Hy; apply H; now right).
  rewrite insert_asc_snoc by (apply H; now left).
  reflexivity.
Qed.

Lemma find_sorted_after_create (id : jsstring) (cur : TrackingData)
    (t : Z) (c : list LocoData) :
  created_by t id c ->
  find_sorted id (c ++ [new_doc id cur (Some t)]) =
  find_sorted id c ++ [new_doc id cur (Some t)].
Proof.
  intros Hc. unfold find_sorted. rewrite filter_app.
  cbn [filter d_locoId new_doc]. rewrite str_eqb_refl.
  apply sort_asc_snoc.
  intros x Hx. apply filter_In in Hx as [Hx Hid]. now apply Hc.
Qed.

(** C7, as stated, fails: the first of two polls with the same
    telemetry loses its insert to a store failure, and the second one,
    with the store back, adds the point: the stored history grows from
    0 to 1 between them. *)
Lemma retried_insert_grows_history :
  length (find_sorted loco
            (coll (snd (call (world_of at_delhi (Some store_down) 1000)
                             [])))) = 0 /\
  length (find_sorted loco
            (coll (snd (call (world_of at_delhi None 2000)
                             (coll (snd (call (world_of at_delhi
                                                 (Some store_down) 1000)
                                              []))))))) = 1.
Proof. split; vm_compute; reflexivity. Qed.

(** C7, amended. Of two consecutive calls that read the same telemetry
    for the same id, the second leaves the collection, and so the
    length of the stored history, as the first left it, provided the
    first either detected no movement or had its insert accepted, no
    stored document being younger than that insert.  A call that
    detects no movement writes nothing.  Every call, whatever happens
    in it, adds at most one document. *)
Theorem repeated_poll_persists_nothing :
  (forall w1 w2 id row html c,
      telemetry_read w1 id row html -> store_up w1 ->
      telemetry_read w2 id row html -> store_up w2 ->
      hasMoved (lastRecord (find_sorted id c))
               (currentData_of row (parsePopupMsg html)) = false
      \/ insert_ok w1 = true ->
      created_by (clock_create w1) id c ->
      coll (snd (call w2 (coll (snd (call w1 c))))) = coll (snd (call w1 c))
      /\ length (find_sorted id (coll (snd (call w2 (coll (snd (call w1 c)))))))
         = length (find_sorted id (coll (snd (call w1 c))))) /\
  (forall w id row html c,
      telemetry_read w id row html -> store_up w ->
      hasMoved (lastRecord (find_sorted id c))
               (currentData_of row (parsePopupMsg html)) = false ->
      coll (snd (call w c)) = c) /\
  (forall w c, persists_at_most_one w c).
Proof.
  split; [|split; [|exact call_persists_at_most_one]].
  2:{ intros w id row html c Hr Hu Hm.
      rewrite (POST_reconciles c Hr Hu). cbn [snd coll]. now rewrite Hm. }
  intros w1 w2 id row html c Hr1 Hu1 Hr2 Hu2 Hfirst Hclock.
  assert (Hsame :
    coll (snd (call w2 (coll (snd (call w1 c))))) = coll (snd (call w1 c))).
  { rewrite (POST_reconciles c Hr1 Hu1). cbn [snd coll].
    set (cur := currentData_of row (parsePopupMsg html)) in *.
    destruct (hasMoved (lastRecord (find_sorted id c)) cur) eqn:Hm.
    - destruct Hfirst as [Hf|Hf]; [discriminate|]. rewrite Hf. cbn [andb].
      rewrite (POST_reconciles _ Hr2 Hu2). cbn [snd coll]. fold cur.
      rewrite find_sorted_after_create by exact Hclock.
      rewrite lastRecord_snoc.
      now rewrite hasMoved_same_position.
    - cbn [andb].
      rewrite (POST_reconciles c Hr2 Hu2). cbn [snd coll]. fold cur.
      now rewrite Hm. }
  split; [exact Hsame|now rewrite Hsame].
Qed.

(** The first two polls of the scenario. *)
Lemma repeated_poll_persists_nothing_witness :
  coll (snd (call (world_of at_delhi None 2000)
                  (coll (snd (call (world_of at_delhi None 1000) [])))))
  = coll (snd (call (world_of at_delhi None 1000) [])).
Proof.
  refine (proj1 (proj1 repeated_poll_persists_nothing
                   (world_of at_delhi None 1000)
                   (world_of at_delhi None 2000)
                   loco at_delhi popup [] _ _ _ _ _ _)).
  - apply world_of_reads.
  - apply world_of_store_up.
  - apply world_of_reads.
  - apply world_of_store_up.
  - right. reflexivity.
  - intros d [].
Defined.

(** The scenario of the specification: the stored and the returned
    history have lengths 1, 1 and 2, and the last element of the third
    answer is the new point. *)
Example scenario_three_polls :
  map (fun n => length (scenario_store n)) [0; 1; 2; 3] = [0; 1; 1; 2] /\
  exists h1 h2 p1 p2,
    fst (call (world_of at_delhi None 1000) (scenario_store 0)) =
      inr (snapshot_response (data_of at_delhi) h1) /\
    h1 = [currentPoint (world_of at_delhi None 1000) (data_of at_delhi)] /\
    fst (call (world_of at_delhi None 2000) (scenario_store 1)) =
      inr (snapshot_response (data_of at_delhi) h2) /\
    length h2 = 1 /\
    fst (call (world_of further_on None 3000) (scenario_store 2)) =
      inr (snapshot_response (data_of further_on) [p1; p2]) /\
    p2 = currentPoint (world_of further_on None 3000) (data_of further_on).
Proof.
  split; [vm_compute; reflexivity|].
  do 4 eexists.
  split; [vm_compute; reflexivity|]. split; [vm_compute; reflexivity|].
  split; [vm_compute; reflexivity|]. split; [reflexivity|].
  split; vm_compute; reflexivity.
Qed.

(** ** Status codes *)

Ltac handler_run :=
  repeat (handler_steps;
          match goal with
          | H : ?l = _ |- context [?l] => rewrite H
          end);
  handler_steps.

Lemma POST_missing_id (w : world) (c : list LocoData) :
  missing_id w ->
  call w c =
  (inr (NextResponse_json (ErrorBody (lit "Loco ID is required")) 400),
   {| coll := c; ops := [] |}).
Proof.
  intros (v & Hreq & Hv). handler_steps. rewrite Hreq. handler_steps.
  fold (truthy v). rewrite Hv. reflexivity.
Qed.

Lemma POST_not_found (w : world) (id : jsstring) (data : FoisData)
    (c : list LocoData) :
  source_answers w id data -> zero_rows data ->
  call w c =
  (inr (NextResponse_json
          (ErrorBody (lit "Loco not found or no data available.")) 404),
   {| coll := c; ops := [OpFetch (apiUrl id)] |}).
Proof.
  intros ((Hreq & Hid) & resp & Hf & Hok & Hj) Hz.
  handler_steps. rewrite Hreq. handler_steps. rewrite Hid. handler_steps.
  rewrite Hf. handler_steps. rewrite Hok. handler_steps. rewrite Hj.
  handler_steps.
  destruct Hz as [Hz|Hz]; rewrite Hz; [reflexivity|].
  destruct (is_zero_rows (RowCont data)); reflexivity.
Qed.

Lemma POST_unreadable_body (w : world) (e : thrown) (c : list LocoData) :
  unreadable_body w e ->
  call w c =
  (inr (NextResponse_json (ErrorBody (error_message e)) 500),
   {| coll := c; ops := [] |}).
Proof.
  unfold unreadable_body. intros Hreq. handler_steps. now rewrite Hreq.
Qed.

Lemma POST_failure (w : world) (c : list LocoData) :
  failure w ->
  exists msg s',
    call w c = (inr (NextResponse_json (ErrorBody msg) 500), s') /\
    coll s' = c.
Proof.
  intros [id e [Hreq Hid] Hf
         |id resp [Hreq Hid] Hf Hok
         |id resp e [Hreq Hid] Hf Hok Hj
         |id data ((Hreq & Hid) & resp & Hf & Hok & Hj) Hz Hrows
         |id data row rest ((Hreq & Hid) & resp & Hf & Hok & Hj) Hz Hrows Hpop
         |id row html e
            (data & rest & ((Hreq & Hid) & resp & Hf & Hok & Hj) & Hz & Hrows
             & Hpop) Hdb
         |id row html e
            (data & rest & ((Hreq & Hid) & resp & Hf & Hok & Hj) & Hz & Hrows
             & Hpop) Hdb Hfind];
    handler_run; eexists; eexists; split; reflexivity.
Qed.

(** The five outcomes cover every world. *)
Lemma POST_outcomes_exhaustive (w : world) :
  missing_id w \/
  (exists e, unreadable_body w e) \/
  (exists id data, source_answers w id data /\ zero_rows data) \/
  failure w \/
  (exists id row html, telemetry_read w id row html /\ store_up w).
Proof.
  destruct (request_json w) as [e|v] eqn:Hreq.
  { right; left. now exists e. }
  destruct (truthy v) eqn:Hv.
  2:{ left. now exists v. }
  destruct v as [id|]; [|discriminate]. cbn [truthy] in Hv.
  assert (Hid : has_id w id) by now split.
  destruct (fetch w (apiUrl id)) as [e|resp] eqn:Hf.
  { right; right; right; left. now apply Fail_fetch with id e. }
  destruct (ok resp) eqn:Hok.
  2:{ right; right; right; left. now apply Fail_status with id resp. }
  destruct (json resp) as [e|data] eqn:Hj.
  { right; right; right; left. now apply Fail_json with id resp e. }
  assert (Hsrc : source_answers w id data).
  { split; [exact Hid|]. now exists resp. }
  destruct (is_zero_rows (RowCont data)) eqn:Hz.
  { right; right; left. exists id, data. split; [exact Hsrc|now left]. }
  destruct (LocoDtls data) as [[|row rest]|] eqn:Hrows.
  - right; right; right; left. now apply Fail_no_row with id data.
  - destruct (PopUpMsg row) as [html|] eqn:Hpop.
    2:{ right; right; right; left.
        now apply Fail_no_annotation with id data row rest. }
    assert (Hread : telemetry_read w id row html).
    { exists data, rest. split; [exact Hsrc|]. now repeat split. }
    destruct (dbConnect w) as [e|] eqn:Hdb.
    { right; right; right; left.
      now apply Fail_connect with id row html e. }
    destruct (find_fails w) as [e|] eqn:Hfind.
    { right; right; right; left. now apply Fail_find with id row html e. }
    right; right; right; right. exists id, row, html. now repeat split.
  - right; right; left. exists id, data. split; [exact Hsrc|now right].
Qed.

Example status_400 :
  call world_no_id [doc_at "28.61" "77.20"] =
  (inr (NextResponse_json (ErrorBody (lit "Loco ID is required")) 400),
   {| coll := [doc_at "28.61" "77.20"]; ops := [] |}).
Proof. reflexivity. Qed.

Example status_404 :
  call world_zero_rows [] =
  (inr (NextResponse_json
          (ErrorBody (lit "Loco not found or no data available.")) 404),
   {| coll := []; ops := [OpFetch (apiUrl loco)] |}).
Proof. reflexivity. Qed.

Example status_500 :
  call world_source_down [] =
  (inr (NextResponse_json (ErrorBody (lit "FOIS API failed: 503")) 500),
   {| coll := []; ops := [OpFetch (apiUrl loco)] |}).
Proof. reflexivity. Qed.

(** C8. A request without a body carries no asset id, and yet it is not
    answered 400: the guard that answers 400 "Loco ID is required" runs
    only once the body has been read, so this request falls to the
    catch-all and is answered 500 with the message of the parse
    error. *)
Lemma unreadable_body_is_answered_500 :
  carries_no_id world_no_body /\
  exists r s',
    call world_no_body [] = (inr r, s') /\
    r_status r = 500%N /\
    r_body r = ErrorBody (lit "Unexpected end of JSON input").
Proof.
  split; [exact I|]. eexists. eexists. split; [reflexivity|].
  split; reflexivity.
Qed.

(** X19. The status of every call.  The handler answers with status 400
    when the body of the request is read and carries no id (the
    [locoId] is absent or empty), and with status 500 and the message
    of the error when the body cannot be read (no body, not JSON,
    [null]), in both cases before any operation is issued; with status
    404 when the source reports zero rows or no row list, no operation
    on the store having been issued; with status 500 when the telemetry
    source or an internal step fails (the fetch, a status that is not
    ok, the JSON of the source, a missing row or annotation, the
    connection to the store, the listing); and with status 200 and a
    snapshot otherwise.  An error answer leaves the collection as it
    was, and these five cases cover every call. *)
Theorem POST_status (w : world) (c : list LocoData) :
  (missing_id w ->
   exists r,
     call w c = (inr r, {| coll := c; ops := [] |}) /\
     r_status r = 400%N /\
     r_body r = ErrorBody (lit "Loco ID is required")) /\
  (forall e,
      unreadable_body w e ->
      exists r,
        call w c = (inr r, {| coll := c; ops := [] |}) /\
        r_status r = 500%N /\
        r_body r = ErrorBody (error_message e)) /\
  (forall id data,
      source_answers w id data -> zero_rows data ->
      exists r s',
        call w c = (inr r, s') /\
        r_status r = 404%N /\
        r_body r = ErrorBody (lit "Loco not found or no data available.") /\
        no_store_op (ops s') /\ coll s' = c) /\
  (failure w ->
   exists r s' msg,
     call w c = (inr r, s') /\
     r_status r = 500%N /\ r_body r = ErrorBody msg /\ coll s' = c) /\
  (forall id row html,
      telemetry_read w id row html -> store_up w ->
      exists r s' snap,
        call w c = (inr r, s') /\
        r_status r = 200%N /\ r_body r = Snapshot snap) /\
  (missing_id w \/
   (exists e, unreadable_body w e) \/
   (exists id data, source_answers w id data /\ zero_rows data) \/
   failure w \/
   (exists id row html, telemetry_read w id row html /\ store_up w)).
Proof.
  split.
  { intros Hm. rewrite (POST_missing_id c Hm).
    eexists. split; [reflexivity|]. split; reflexivity. }
  split.
  { intros e He. rewrite (POST_unreadable_body c He).
    eexists. split; [reflexivity|]. split; reflexivity. }
  split.
  { intros id data Hsrc Hz. rewrite (POST_not_found c Hsrc Hz).
    eexists. eexists. split; [reflexivity|]. repeat split. }
  split.
  { intros Hf. destruct (POST_failure c Hf) as (msg & s' & Hcall & Hc).
    rewrite Hcall. eexists. exists s', msg.
    split; [reflexivity|]. repeat split. exact Hc. }
  split; [|apply POST_outcomes_exhaustive].
  intros id row html Hread Hup. rewrite (POST_reconciles c Hread Hup).
  eexists. eexists. eexists. split; [reflexivity|]. split; reflexivity.
Qed.

(** One call of each kind. *)
Lemma POST_status_witness :
  (exists r,
      call world_no_id [doc_at "28.61" "77.20"] =
        (inr r, {| coll := [doc_at "28.61" "77.20"]; ops := [] |}) /\
      r_status r = 400%N /\
      r_body r = ErrorBody (lit "Loco ID is required")) /\
  (exists r,
      call world_no_body [doc_at "28.61" "77.20"] =
        (inr r, {| coll := [doc_at "28.61" "77.20"]; ops := [] |}) /\
      r_status r = 500%N /\
      r_body r = ErrorBody (lit "Unexpected end of JSON input")) /\
  (exists r s',
      call world_zero_rows [] = (inr r, s') /\
      r_status r = 404%N /\
      r_body r = ErrorBody (lit "Loco not found or no data available.") /\
      no_store_op (ops s') /\ coll s' = []) /\
  (exists r s' msg,
      call world_source_down [] = (inr r, s') /\
      r_status r = 500%N /\ r_body r = ErrorBody msg /\ coll s' = []) /\
  (exists r s' snap,
      call (world_of at_delhi None 1000) [] = (inr r, s') /\
      r_status r = 200%N /\ r_body r = Snapshot snap).
Proof.
  split.
  { apply (proj1 (POST_status world_no_id [doc_at "28.61" "77.20"])).
    exists (Some []). split; reflexivity. }
  split.
  { apply (proj1 (proj2 (POST_status world_no_body
                                     [doc_at "28.61" "77.20"]))
             (ErrorObj (lit "Unexpected end of JSON input"))).
    reflexivity. }
  split.
  { apply (proj1 (proj2 (proj2 (POST_status world_zero_rows [])))
             loco {| RowCont := Some (lit "0"); LocoDtls := None |}).
    - split; [split; reflexivity|].
      eexists. split; [reflexivity|]. split; reflexivity.
    - left. reflexivity. }
  split.
  { apply (proj1 (proj2 (proj2 (proj2 (POST_status world_source_down []))))).
    apply Fail_status
      with loco {| ok := false; status := 503; json := inl OtherValue |};
      [split; reflexivity|reflexivity|reflexivity]. }
  apply (proj1 (proj2 (proj2 (proj2 (proj2
           (POST_status (world_of at_delhi None 1000) [])))))
           loco at_delhi popup).
  - apply world_of_reads.
  - apply world_of_store_up.
Defined.

End RouteFacts.

(* ===================================================================== *)
(** * Properties of the tracking session                                 *)
(* ===================================================================== *)

Module PageFacts.
Import JS Route Spec JSFacts Page.

(** ** The interval and the tracking flag *)

Lemma well_timed_cases (s : state) :
  well_timed s ->
  (isTracking s = false /\ timers s = []) \/
  (exists t, isTracking s = true /\ timers s = [(t, locoId s)] /\
             intervalRef s = Some t /\ isLoading s = false).
Proof.
  unfold well_timed. destruct (timers s) as [|[t id] [|x r]]; intros H.
  - now left.
  - right. destruct H as (H1 & H2 & -> & H4). now exists t.
  - contradiction.
Qed.

(** The effect restores the invariant whenever the only interval that
    may be set is the one the ref points to. *)
Lemma polling_effect_well_timed (s : state) :
  (timers s = [] \/
   exists t id, timers s = [(t, id)] /\ intervalRef s = Some t) ->
  (isTracking s = true -> isLoading s = false) ->
  well_timed (polling_effect s).
Proof.
  intros Ht Hl. unfold polling_effect, clear_ref, well_timed.
  destruct s as [lid cd hd tr ld er ref tm nx inf]; cbn in *.
  destruct Ht as [->|(t & id & -> & ->)].
  - destruct ref as [r|], tr;
      cbv [setInterval_ref clearInterval]; cbn; auto.
  - destruct tr; cbv [setInterval_ref clearInterval]; cbn;
      rewrite ?Nat.eqb_refl; cbn; rewrite ?Nat.eqb_refl; cbn; auto.
Qed.

Lemma commit_well_timed (before after : state) :
  well_timed before ->
  timers after = timers before -> intervalRef after = intervalRef before ->
  (isTracking after = true -> isLoading after = false) ->
  well_timed (commit before after).
Proof.
  intros Hinv Ht Hr Hl. unfold commit.
  destruct (Bool.eqb (isTracking before) (isTracking after)
            && str_eqb (locoId before) (locoId after)) eqn:Hdeps.
  - apply andb_prop in Hdeps as [Htr Hid].
    apply eqb_prop in Htr. apply str_eqb_eq in Hid.
    unfold well_timed in Hinv |- *. rewrite Ht.
    destruct (timers before) as [|[t id] [|x r]]; [congruence| |exact Hinv].
    destruct Hinv as (H1 & H2 & H3 & H4).
    repeat split; [congruence|congruence|congruence|].
    apply Hl. congruence.
  - apply polling_effect_well_timed; [|exact Hl].
    rewrite Ht, Hr.
    destruct (@well_timed_cases _ Hinv) as [[_ ->]|(t & _ & -> & -> & _)].
    + now left.
    + right. now exists t, (locoId before).
Qed.

Lemma step_well_timed (s s' : state) (e : event) :
  well_timed s -> step s e = Some s' -> well_timed s'.
Proof.
  intros Hinv Hstep. destruct e as [|v|t|i o]; cbn [step] in Hstep.
  - destruct (isLoading s) eqn:Hl; [discriminate|]. inversion Hstep; subst.
    apply commit_well_timed; trivial.
    + unfold handleFormSubmit. destruct (isTracking s); reflexivity.
    + unfold handleFormSubmit. destruct (isTracking s); reflexivity.
    + unfold handleFormSubmit. destruct (isTracking s) eqn:Htr; cbn.
      * discriminate.
      * rewrite Htr. discriminate.
  - destruct (isLoading s) eqn:Hl; [discriminate|]. inversion Hstep; subst.
    apply commit_well_timed; trivial.
  - destruct (timer_closure t (timers s)) as [id|] eqn:Hc; [|discriminate].
    inversion Hstep; subst.
    apply commit_well_timed; trivial. cbn. intros Htr.
    destruct (@well_timed_cases _ Hinv) as [[H _]|(t' & _ & _ & _ & H)];
      congruence.
  - destruct (nth_error (inflight s) i) as [q|] eqn:Hq; [|discriminate].
    inversion Hstep; subst.
    apply commit_well_timed; trivial.
    + unfold fetchData_resume. destruct (received o); [reflexivity|].
      destruct (q_isTracking q); reflexivity.
    + unfold fetchData_resume. destruct (received o); [reflexivity|].
      destruct (q_isTracking q); reflexivity.
Qed.

Lemma run_well_timed (tr : list event) (s s' : state) :
  well_timed s -> run s tr = Some s' -> well_timed s'.
Proof.
  revert s. induction tr as [|e tr IH]; intros s Hinv Hrun;
    cbn [run] in Hrun.
  - now inversion Hrun; subst.
  - destruct (step s e) as [s1|] eqn:Hstep; [|discriminate].
    apply (IH s1); [|exact Hrun]. now apply (@step_well_timed s s1 e).
Qed.

Lemma reachable_well_timed (s : state) : reachable s -> well_timed s.
Proof.
  intros [tr Hrun].
  refine (@run_well_timed tr init s _ Hrun). reflexivity.
Qed.

Lemma no_tick_while_stopped (s : state) (t : nat) :
  reachable s -> isTracking s = false -> step s (Tick t) = None.
Proof.
  intros Hr Hoff. apply reachable_well_timed in Hr.
  destruct (@well_timed_cases _ Hr) as [[_ Ht]|(t' & Hon & _)];
    [|congruence].
  cbn [step]. now rewrite Ht.
Qed.

(** ** Stop *)

Lemma stop_step (s : state) :
  reachable s -> isTracking s = true ->
  exists s1,
    step s Submit = Some s1 /\
    isTracking s1 = false /\ timers s1 = [] /\
    inflight s1 = inflight s.
Proof.
  intros Hr Hon. apply reachable_well_timed in Hr.
  destruct (@well_timed_cases _ Hr) as [[Hoff _]|(t & _ & Ht & Href & Hl)];
    [congruence|].
  destruct s as [lid cd hd tr ld er ref tm nx inf]; cbn in *. subst.
  eexists. split; [reflexivity|].
  cbv [commit handleFormSubmit setIsTracking isTracking locoId Bool.eqb andb
       polling_effect clear_ref intervalRef clearInterval timers filter fst
       negb]. rewrite Nat.eqb_refl. cbn. repeat split.
Qed.

Lemma settle_after_stop (s1 : state) (i : nat) (q : poll) (o : outcome) :
  isTracking s1 = false -> timers s1 = [] ->
  nth_error (inflight s1) i = Some q ->
  exists s2,
    step s1 (Settle i o) = Some s2 /\
    match received o with
    | inr data =>
        currentData s2 = Some (current data) /\
        historyData s2 = history data
    | inl e =>
        error s2 = Some (error_message e) /\ isTracking s2 = false
    end /\
    (q_isTracking q = true -> isTracking s2 = false /\ timers s2 = []).
Proof.
  intros Hoff Ht Hq. cbn [step]. rewrite Hq. eexists. split; [reflexivity|].
  destruct s1 as [lid cd hd tr ld er ref tm nx inf]; cbn in Hoff, Ht, Hq.
  subst tr tm.
  unfold fetchData_resume.
  destruct (received o) as [e|data]; destruct (q_isTracking q);
    cbv [commit set_inflight setIsTracking setError setIsLoading
         setHistoryData setCurrentData isTracking locoId Bool.eqb andb negb
         polling_effect clear_ref intervalRef clearInterval timers filter
         setInterval_ref currentData historyData error next_timer inflight
         isLoading];
    rewrite ?str_eqb_refl; try (destruct ref; cbn); repeat split;
    try discriminate.
Qed.

Lemma polling_trace_runs : run init polling_trace = Some (after polling_trace).
Proof. vm_compute. reflexivity. Qed.

Lemma stop_trace_runs : run init stop_trace = Some (after stop_trace).
Proof. vm_compute. reflexivity. Qed.

(** C4, as stated, fails: a tick is in flight when Stop is pressed; the
    interval is cleared and tracking is off, yet when the poll settles
    its snapshot replaces the one the session showed at the stop. *)
Lemma stale_poll_updates_stopped_session :
  exists s_late,
    run init stop_trace = Some (after stop_trace) /\
    isTracking (after stop_trace) = false /\
    timers (after stop_trace) = [] /\
    inflight (after stop_trace) =
      [{| q_locoId := loco; q_isTracking := true |}] /\
    currentData (after stop_trace) = Some (current snapshot_a) /\
    step (after stop_trace) (Settle 0 (answer snapshot_b)) = Some s_late /\
    currentData s_late = Some (current snapshot_b) /\
    currentData s_late <> currentData (after stop_trace).
Proof.
  eexists. split; [exact stop_trace_runs|].
  split; [reflexivity|]. split; [reflexivity|]. split; [reflexivity|].
  split; [reflexivity|]. split; [vm_compute; reflexivity|].
  split; [reflexivity|].
  intros H. vm_compute in H. discriminate H.
Qed.

(** A first poll that is still in flight at the stop turns tracking
    back on when it settles, and the interval with it: the next tick
    fires without any action of the user. *)
Lemma late_first_poll_restarts_polling :
  exists s_late s_tick,
    run init double_start_trace = Some (after double_start_trace) /\
    isTracking (after double_start_trace) = false /\
    timers (after double_start_trace) = [] /\
    step (after double_start_trace) (Settle 0 (answer snapshot_b))
      = Some s_late /\
    isTracking s_late = true /\
    timers s_late = [(2, loco)] /\
    step s_late (Tick 2) = Some s_tick.
Proof.
  eexists. eexists. split; [vm_compute; reflexivity|].
  split; [reflexivity|]. split; [reflexivity|].
  split; [vm_compute; reflexivity|].
  split; [reflexivity|]. split; [reflexivity|].
  vm_compute. reflexivity.
Qed.

(** C4, amended. In every reachable state no tick fires while tracking
    is off.  Stop, in a tracking session, turns tracking off and clears
    the interval at once, but cancels no poll: each poll in flight
    still settles afterwards and applies its result, the snapshot on
    success, the error otherwise; a poll started by a tick leaves
    tracking off and the interval cleared when it does. *)
Theorem stop_clears_interval_not_polls :
  (forall s t,
      reachable s -> isTracking s = false -> step s (Tick t) = None) /\
  (forall s,
      reachable s -> isTracking s = true ->
      exists s1,
        step s Submit = Some s1 /\
        isTracking s1 = false /\ timers s1 = [] /\
        inflight s1 = inflight s /\
        forall i q o,
          nth_error (inflight s1) i = Some q ->
          exists s2,
            step s1 (Settle i o) = Some s2 /\
            match received o with
            | inr data =>
                currentData s2 = Some (current data) /\
                historyData s2 = history data
            | inl e =>
                error s2 = Some (error_message e) /\ isTracking s2 = false
            end /\
            (q_isTracking q = true ->
             isTracking s2 = false /\ timers s2 = [])).
Proof.
  split; [intros s t; apply no_tick_while_stopped|].
  intros s Hr Hon.
  destruct (@stop_step s Hr Hon) as (s1 & Hstep & Hoff & Ht & Hin).
  exists s1. repeat split; try assumption.
  intros i q o Hq. now apply settle_after_stop.
Qed.

(** Stop with a tick in flight. *)
Lemma stop_clears_interval_not_polls_witness :
  exists s1,
    step (after polling_trace) Submit = Some s1 /\
    isTracking s1 = false /\ timers s1 = [] /\
    inflight s1 = inflight (after polling_trace) /\
    forall i q o,
      nth_error (inflight s1) i = Some q ->
      exists s2,
        step s1 (Settle i o) = Some s2 /\
        match received o with
        | inr data =>
            currentData s2 = Some (current data) /\
            historyData s2 = history data
        | inl e =>
            error s2 = Some (error_message e) /\ isTracking s2 = false
        end /\
        (q_isTracking q = true -> isTracking s2 = false /\ timers s2 = []).
Proof.
  apply (proj2 stop_clears_interval_not_polls (after polling_trace)).
  - exists polling_trace. exact polling_trace_runs.
  - reflexivity.
Defined.

End PageFacts.

(* ===================================================================== *)
(** * Further properties of the route *)
(* ===================================================================== *)

Module RouteMore.
Import JS Route Spec Terms JSFacts RouteFacts.

(** ** Every call is answered *)

(** X1. Whatever the request, the source and the store do, the handler
    returns a response and lets no exception out; the status is 200
    with a snapshot, or 400, 404 or 500 with an error message, and a
    call that answers with an error has written nothing. *)
Theorem POST_always_answers (w : world) (c : list LocoData) :
  exists r s',
    call w c = (inr r, s') /\
    ((r_status r = 200%N /\ exists d, r_body r = Snapshot d) \/
     ((r_status r = 400%N \/ r_status r = 404%N \/ r_status r = 500%N) /\
      coll s' = c /\ exists m, r_body r = ErrorBody m)).
Proof.
  handler_cases; eexists; eexists; (split; [reflexivity|]);
    cbn [r_status r_body NextResponse_json coll];
    solve [ left; split; [reflexivity|eexists; reflexivity]
          | right; split; [tauto|split; [reflexivity|eexists; reflexivity]] ].
Qed.

(** A snapshot only ever travels with status 200. *)
Lemma POST_snapshot_status (w : world) (c : list LocoData) :
  exists r s',
    call w c = (inr r, s') /\
    match r_body r with
    | Snapshot _ => r_status r = 200%N
    | ErrorBody _ => True
    end.
Proof.
  handler_cases; eexists; eexists; (split; [reflexivity|]);
    cbn [r_status r_body NextResponse_json]; solve [reflexivity | exact I].
Qed.

(** X2. The operations of a call are issued in one fixed order, each at
    most once: the fetch of the live data, then the connection to the
    store, then the listing, then the insert, which is for the id that
    was listed; the store is never touched before the source has
    answered, and nothing is written before the history is read. *)
Theorem POST_operations_in_order (w : world) (c : list LocoData) :
  in_order (ops (snd (call w c))) = true.
Proof.
  handler_cases; cbn [in_order new_doc d_locoId];
    rewrite ?str_eqb_refl; reflexivity.
Qed.

(** ** The answer and the store agree *)




(** X4. A point that was persisted is read back: listing the id after
    the call gives the listing before it followed by the new document,
    which is therefore the record the next call compares with (no
    stored document of the id being younger than the insert). *)
Theorem persisted_point_is_listed_last (w : world) (id : jsstring)
    (row : LocoDtl) (html : jsstring) (c : list LocoData) :
  telemetry_read w id row html -> store_up w ->
  hasMoved (lastRecord (find_sorted id c))
           (currentData_of row (parsePopupMsg html)) = true ->
  insert_ok w = true ->
  created_by (clock_create w) id c ->
  let cur := currentData_of row (parsePopupMsg html) in
  let doc := new_doc id cur (Some (clock_create w)) in
  find_sorted id (coll (snd (call w c))) = find_sorted id c ++ [doc] /\
  lastRecord (find_sorted id (coll (snd (call w c)))) = Some doc.
Proof.
  intros Hread Hup Hm Hins Hclock cur doc. subst cur doc.
  rewrite (POST_reconciles c Hread Hup). cbn [snd coll].
  rewrite Hm, Hins. cbn [andb].
  rewrite find_sorted_after_create by exact Hclock.
  split; [reflexivity|apply lastRecord_snoc].
Qed.

Lemma persisted_point_is_listed_last_witness :
  find_sorted loco
    (coll (snd (call (world_of further_on None 3000)
                     [doc_at "28.61" "77.20"])))
  = find_sorted loco [doc_at "28.61" "77.20"]
    ++ [new_doc loco (data_of further_on) (Some 3000%Z)].
Proof.
  refine (proj1 (@persisted_point_is_listed_last
                   (world_of further_on None 3000) loco further_on popup
                   [doc_at "28.61" "77.20"] _ _ _ _ _)).
  - apply world_of_reads.
  - apply world_of_store_up.
  - vm_compute. reflexivity.
  - reflexivity.
  - intros d [<-|[]] _. reflexivity.
Defined.

(** ** One locomotive at a time *)

(** Case analysis on the answers of the world, the two listings being
    known to agree. *)
Ltac handler_cases_upto H :=
  repeat (handler_steps; rewrite ?H;
          match goal with
          | |- context [match ?x with _ => _ end] =>
              lazymatch x with
              | context [match _ with _ => _ end] => fail
              | _ => destruct x eqn:?
              end
          end);
  handler_steps.

(** X5. The answer depends on the documents of the requested locomotive
    only: two collections that hold the same documents for the id of
    the request get the same response, whatever they hold for other
    ids. *)
Theorem answer_depends_on_own_documents (w : world)
    (c1 c2 : list LocoData) :
  (forall id, request_json w = inr (Some id) ->
              docs_of id c1 = docs_of id c2) ->
  fst (call w c1) = fst (call w c2).
Proof.
  intros Hsame.
  destruct (request_json w) as [e|[id|]] eqn:Hreq.
  - handler_steps. rewrite Hreq. reflexivity.
  - assert (Hfs : find_sorted id c1 = find_sorted id c2).
    { unfold find_sorted. fold (docs_of id c1). fold (docs_of id c2).
      now rewrite (Hsame id eq_refl). }
    handler_steps. rewrite Hreq.
    handler_cases_upto Hfs; reflexivity.
  - handler_steps. rewrite Hreq. reflexivity.
Qed.

Lemma answer_depends_on_own_documents_witness :
  fst (call (world_of at_delhi None 2000) [doc_at "28.61" "77.20"]) =
  fst (call (world_of at_delhi None 2000)
            [other_doc; doc_at "28.61" "77.20"; other_doc]).
Proof.
  apply answer_depends_on_own_documents.
  intros id Hid. inversion Hid; subst. vm_compute. reflexivity.
Defined.

(** ** The movement test *)

Lemma binary_round_aux_abs (s1 s2 : bool) (m e : Z) (l : location) :
  SFabs (binary_round_aux prec emax s1 m e l) =
  SFabs (binary_round_aux prec emax s2 m e l).
Proof.
  unfold binary_round_aux.
  destruct (shr_fexp prec emax m e l) as [mrs' e'].
  destruct (shr_fexp prec emax _ e' loc_Exact) as [mrs'' e''].
  destruct (shr_m mrs''); [reflexivity| |reflexivity].
  destruct (e'' <=? emax - prec)%Z; reflexivity.
Qed.

Lemma binary_normalize_abs_opp (m e : Z) :
  SFabs (binary_normalize prec emax m e false) =
  SFabs (binary_normalize prec emax (- m) e false).
Proof.
  destruct m as [|p|p]; cbn [binary_normalize Z.opp]; [reflexivity| |];
    unfold binary_round;
    destruct (shl_align p e _) as [mz ez]; apply binary_round_aux_abs.
Qed.

Lemma abs_sub_comm (x y : number) :
  Math_abs (sub x y) = Math_abs (sub y x).
Proof.
  unfold Math_abs, sub.
  destruct x as [sx|sx| |sx mx ex], y as [sy|sy| |sy my ey];
    try reflexivity;
    try (destruct sx, sy; reflexivity).
  cbn [SFsub]. rewrite (Z.min_comm ey ex).
  rewrite binary_normalize_abs_opp. f_equal. f_equal. lia.
Qed.

(** X6. The movement test is symmetric: a point [b] counts as moved
    against a stored [a] exactly when [a] counts as moved against a
    stored [b], for all binary64 coordinates. *)
Theorem hasMoved_symmetric (a b : TrackingData) (ida idb : jsstring)
    (ta tb : option Z) :
  hasMoved (Some (new_doc ida a ta)) b = hasMoved (Some (new_doc idb b tb)) a.
Proof.
  unfold hasMoved. cbn [new_doc d_lat d_lng].
  now rewrite (abs_sub_comm (lat a) (lat b)), (abs_sub_comm (lng a) (lng b)).
Qed.

Lemma sub_NaN_l (y : number) : sub NaN y = NaN.
Proof. reflexivity. Qed.

Lemma sub_NaN_r (x : number) : sub x NaN = NaN.
Proof. destruct x; reflexivity. Qed.

Lemma hasMoved_NaN (r : LocoData) (p : TrackingData) :
  (d_lat r = NaN /\ d_lng r = NaN) \/ (lat p = NaN /\ lng p = NaN) ->
  hasMoved (Some r) p = false.
Proof.
  unfold hasMoved. intros [[-> ->]|[-> ->]].
  - reflexivity.
  - now rewrite !sub_NaN_r.
Qed.

(** X7. A reading whose two coordinates are absent or not numeric is
    never added to an existing trail: both differences are NaN, no
    comparison with NaN holds, so the call detects no movement, writes
    nothing and returns the stored trail as it is. *)
Theorem unusable_reading_is_not_persisted (w : world) (id : jsstring)
    (row : LocoDtl) (html : jsstring) (c : list LocoData) :
  telemetry_read w id row html -> store_up w ->
  find_sorted id c <> [] ->
  non_numeric (Lttd row) -> non_numeric (Lgtd row) ->
  call w c =
  (inr (snapshot_response (currentData_of row (parsePopupMsg html))
          (map (toHistoryPoint w) (find_sorted id c))),
   {| coll := c; ops := [OpFetch (apiUrl id); OpConnect; OpFind id] |}).
Proof.
  intros Hread Hup Hne Hlat Hlng.
  rewrite (POST_reconciles c Hread Hup).
  destruct (lastRecord_some Hne) as (l' & r & Heq & Hlast). rewrite Hlast.
  rewrite hasMoved_NaN.
  2:{ right. cbn [currentData_of lat lng].
      split; now apply parseFloat_field_non_numeric. }
  cbn [andb app]. unfold finalHistory, select_arm. cbn [andb negb].
  rewrite length_map.
  destruct (find_sorted id c); [contradiction|reflexivity].
Qed.

Lemma unusable_reading_is_not_persisted_witness :
  call (world_of (row_at None (Some (lit "n/a"))) None 2000)
       [doc_at "28.61" "77.20"] =
  (inr (snapshot_response (data_of (row_at None (Some (lit "n/a"))))
          (map (toHistoryPoint
                  (world_of (row_at None (Some (lit "n/a"))) None 2000))
               (find_sorted loco [doc_at "28.61" "77.20"]))),
   {| coll := [doc_at "28.61" "77.20"];
      ops := [OpFetch (apiUrl loco); OpConnect; OpFind loco] |}).
Proof.
  apply (@unusable_reading_is_not_persisted
           (world_of (row_at None (Some (lit "n/a"))) None 2000) loco
           (row_at None (Some (lit "n/a"))) popup [doc_at "28.61" "77.20"]).
  - apply world_of_reads.
  - apply world_of_store_up.
  - vm_compute. discriminate.
  - exact I.
  - reflexivity.
Defined.

(** ** Reading a tagged value back *)

Lemma app_prefix_inv {A} (p l x r : list A) :
  l ++ x = p ++ r -> length p <= length l -> exists b, l = p ++ b.
Proof.
  revert l. induction p as [|a p IH]; intros l H Hlen.
  - now exists l.
  - destruct l as [|a' l]; [simpl in Hlen; lia|].
    simpl in H. inversion H as [[Ha Hr]]. simpl in Hlen.
    destruct (IH l Hr) as [b ->]; [lia|]. now exists b.
Qed.

Lemma only_at_end_tail (p s : jsstring) (c : code_unit) :
  only_at_end p (c :: s) -> only_at_end p s.
Proof.
  intros H a b Heq. apply (H (c :: a) b). now rewrite Heq.
Qed.

(** Where a pattern occurs only at the end of [c :: s ++ p], it is not
    a prefix of anything that starts with [c :: s ++ p]. *)
Lemma strip_prefix_only_at_end (p s x : jsstring) (c : code_unit) :
  only_at_end p ((c :: s) ++ p) ->
  strip_prefix p (((c :: s) ++ p) ++ x) = None.
Proof.
  intros Hend.
  destruct (strip_prefix p (((c :: s) ++ p) ++ x)) as [r|] eqn:E;
    [|reflexivity].
  apply strip_prefix_inv in E.
  destruct (@app_prefix_inv _ p ((c :: s) ++ p) x r E) as [b Hb].
  { rewrite length_app. lia. }
  assert (Hnil : b = []) by (apply (Hend [] b); exact Hb).
  subst b. rewrite app_nil_r in Hb.
  apply (f_equal (@length _)) in Hb. rewrite length_app in Hb.
  simpl in Hb. lia.
Qed.

Lemma lazy_capture_exact (v post : jsstring) :
  only_at_end close_tag (v ++ close_tag) -> no_line_terminator v ->
  lazy_capture (v ++ close_tag ++ post) = Some v.
Proof.
  induction v as [|c v IH]; intros Hend Hn; rewrite lazy_capture_eq.
  - rewrite app_nil_l. now rewrite strip_prefix_app.
  - rewrite app_assoc.
    rewrite (strip_prefix_only_at_end _ Hend). rewrite <- app_assoc.
    unfold no_line_terminator in Hn. simpl in Hn.
    apply andb_prop in Hn as [Hc Hn]. apply negb_true_iff in Hc.
    rewrite <- app_comm_cons. rewrite Hc.
    rewrite IH; [reflexivity| |exact Hn].
    now apply only_at_end_tail with c.
Qed.

Lemma regex_match_exact (label pre v post : jsstring) :
  only_at_end label (pre ++ label) ->
  only_at_end close_tag (v ++ close_tag) -> no_line_terminator v ->
  regex_match label (pre ++ label ++ v ++ close_tag ++ post) = Some v.
Proof.
  intros Hpre Hend Hn.
  induction pre as [|c pre IH]; rewrite regex_match_eq; unfold match_here.
  - rewrite app_nil_l, strip_prefix_app.
    now rewrite lazy_capture_exact.
  - rewrite app_assoc. rewrite (strip_prefix_only_at_end _ Hpre).
    rewrite <- app_assoc. rewrite <- app_comm_cons.
    apply IH. now apply only_at_end_tail with c.
Qed.

Lemma early_free_sound (p s : jsstring) :
  early_free p s = true -> only_at_end p s.
Proof.
  intros H a. revert s H. induction a as [|x a IH]; intros s H b Heq.
  - rewrite app_nil_l in Heq. destruct b as [|y b]; [reflexivity|].
    destruct s as [|c s].
    + apply (f_equal (@length _)) in Heq. rewrite length_app in Heq.
      simpl in Heq. lia.
    + cbn [early_free] in H. rewrite Heq in H at 1.
      rewrite strip_prefix_app in H. discriminate.
  - subst s. cbn [early_free app] in H.
    destruct (strip_prefix p (x :: a ++ p ++ b)) as [[|? ?]|];
      try discriminate; now apply (IH _ H b).
Qed.

(** X8. A value written between a label and its closing tag is read
    back exactly, for each of the three sub-fields, whatever stands
    before and after: it is enough that the value holds no line
    terminator, that the closing tag first occurs where the value
    ends, and that the label does not occur earlier in the text. *)
Theorem tagged_values_are_read_back (pre v post : jsstring) :
  only_at_end close_tag (v ++ close_tag) -> no_line_terminator v ->
  (only_at_end (lit "Station: <b>") (pre ++ lit "Station: <b>") ->
   p_station (parsePopupMsg
                (pre ++ lit "Station: <b>" ++ v ++ close_tag ++ post)) = v) /\
  (only_at_end (lit "Event: <b>") (pre ++ lit "Event: <b>") ->
   p_event (parsePopupMsg
              (pre ++ lit "Event: <b>" ++ v ++ close_tag ++ post)) = v) /\
  (only_at_end (lit "Speed: <b>") (pre ++ lit "Speed: <b>") ->
   p_speed (parsePopupMsg
              (pre ++ lit "Speed: <b>" ++ v ++ close_tag ++ post)) = v).
Proof.
  intros Hend Hn. unfold parsePopupMsg. cbn [p_station p_event p_speed].
  repeat split; intros Hpre; now rewrite regex_match_exact.
Qed.

Lemma tagged_values_are_read_back_witness :
  p_event (parsePopupMsg
             (lit "Loco 37875 " ++ lit "Event: <b>" ++ lit "ARR 10:42"
              ++ close_tag ++ lit " at <b>NDLS</b>"))
  = lit "ARR 10:42".
Proof.
  refine (proj1 (proj2 (@tagged_values_are_read_back
                          (lit "Loco 37875 ") (lit "ARR 10:42")
                          (lit " at <b>NDLS</b>") _ _)) _).
  - apply early_free_sound. reflexivity.
  - reflexivity.
  - apply early_free_sound. reflexivity.
Defined.

(** ** The listing *)

Lemma createdAt_leb_total (a b : option Z) :
  createdAt_leb a b = false -> createdAt_leb b a = true.
Proof.
  destruct a as [x|], b as [y|]; simpl; try congruence.
  intros H. apply Z.leb_le. apply Z.leb_gt in H. lia.
Qed.

Lemma insert_asc_perm (d : LocoData) (l : list LocoData) :
  Permutation (insert_asc d l) (d :: l).
Proof.
  induction l as [|x l IH]; simpl; [reflexivity|].
  destruct (createdAt_leb (d_createdAt d) (d_createdAt x)); [reflexivity|].
  rewrite IH. apply perm_swap.
Qed.

Lemma insert_asc_hd (d x : LocoData) (l : list LocoData) :
  not_after x d -> HdRel not_after x l -> HdRel not_after x (insert_asc d l).
Proof.
  intros Hxd Hhd. destruct l as [|y l]; simpl.
  - now constructor.
  - destruct (createdAt_leb (d_createdAt d) (d_createdAt y));
      constructor; [exact Hxd|]. now inversion Hhd.
Qed.

Lemma insert_asc_sorted (d : LocoData) (l : list LocoData) :
  Sorted not_after l -> Sorted not_after (insert_asc d l).
Proof.
  induction l as [|x l IH]; intros Hs; simpl.
  - repeat constructor.
  - destruct (createdAt_leb (d_createdAt d) (d_createdAt x)) eqn:E.
    + constructor; [exact Hs|]. now constructor.
    + inversion Hs as [|? ? Hs' Hhd]; subst.
      constructor; [now apply IH|].
      apply insert_asc_hd; [|exact Hhd].
      now apply createdAt_leb_total.
Qed.

Lemma createdAt_leb_trans (a b c : option Z) :
  createdAt_leb a b = true -> createdAt_leb b c = true ->
  createdAt_leb a c = true.
Proof.
  destruct a as [x|], b as [y|], c as [z|]; simpl; try congruence.
  rewrite !Z.leb_le. lia.
Qed.

Lemma sort_asc_perm (l : list LocoData) : Permutation (sort_asc l) l.
Proof.
  induction l as [|x l IH]; simpl; [reflexivity|].
  rewrite insert_asc_perm. now constructor.
Qed.

Lemma sort_asc_sorted (l : list LocoData) : Sorted not_after (sort_asc l).
Proof.
  induction l as [|x l IH]; simpl; [constructor|].
  now apply insert_asc_sorted.
Qed.

Lemma strongly_sorted_last (l : list LocoData) (r : LocoData) :
  StronglySorted not_after (l ++ [r]) -> Forall (fun d => not_after d r) l.
Proof.
  induction l as [|x l IH]; intros Hs; [constructor|].
  inversion Hs as [|? ? Hs' Hall]; subst. constructor.
  - rewrite Forall_forall in Hall. apply Hall. apply in_or_app.
    right. now left.
  - now apply IH.
Qed.

(** X9. The history handed to the movement test and to the client holds
    exactly the documents of the requested id, each as often as it is
    stored, in ascending order of creation; the record the new position
    is compared with is one that no other document of the id is
    younger than. *)
Theorem latest_record_is_compared (id : jsstring) (c : list LocoData) :
  Sorted not_after (find_sorted id c) /\
  Permutation (find_sorted id c) (docs_of id c) /\
  (forall r,
      lastRecord (find_sorted id c) = Some r ->
      In r c /\ str_eqb (d_locoId r) id = true /\
      forall d, In d c -> str_eqb (d_locoId d) id = true -> not_after d r).
Proof.
  unfold find_sorted. fold (docs_of id c).
  split; [apply sort_asc_sorted|]. split; [apply sort_asc_perm|].
  intros r Hlast.
  assert (Hin : forall d, In d (sort_asc (docs_of id c)) <->
                          In d c /\ str_eqb (d_locoId d) id = true).
  { intros d.
    rewrite <- (filter_In (fun d => str_eqb (d_locoId d) id) d c).
    fold (docs_of id c).
    split; apply Permutation_in;
      [apply sort_asc_perm|symmetry; apply sort_asc_perm]. }
  assert (Hne : sort_asc (docs_of id c) <> []).
  { intros E. rewrite E in Hlast. discriminate. }
  destruct (lastRecord_some Hne) as (l' & r' & Heq & Hlast').
  rewrite Hlast in Hlast'. inversion Hlast'; subst r'.
  assert (Hr : In r (sort_asc (docs_of id c))).
  { rewrite Heq. apply in_or_app. right. now left. }
  apply Hin in Hr. destruct Hr as [Hrc Hrid].
  split; [exact Hrc|]. split; [exact Hrid|].
  intros d Hd Hdid.
  assert (Hd' : In d (sort_asc (docs_of id c))) by now apply Hin.
  assert (Hss : StronglySorted not_after (l' ++ [r])).
  { rewrite <- Heq. apply Sorted_StronglySorted; [|apply sort_asc_sorted].
    intros x y z. unfold not_after. apply createdAt_leb_trans. }
  rewrite Heq in Hd'. apply in_app_or in Hd' as [Hd'|[<-|[]]].
  - apply strongly_sorted_last in Hss. rewrite Forall_forall in Hss.
    now apply Hss.
  - unfold not_after. destruct (d_createdAt r) as [x|]; simpl;
      [apply Z.leb_refl|reflexivity].
Qed.

(** ** From the route to the client *)

Lemma json_number_finite (x : number) :
  finite x ->
  exists y, Wire.json_number x = Some y /\ MapView.strict_eq x y = true.
Proof.
  destruct x as [s|s| |s m e]; cbn [finite]; try contradiction; intros _.
  - exists (S754_zero false). split; reflexivity.
  - exists (S754_finite s m e). split; [reflexivity|].
    unfold MapView.strict_eq, SFeqb. cbn [SFcompare].
    rewrite Z.compare_refl, Pos.compare_cont_refl. now destruct s.
Qed.

Lemma json_history_finite (l : list HistoryPoint) :
  Forall (fun p => finite (h_lat p) /\ finite (h_lng p)) l ->
  exists l', Wire.json_history l = Some l' /\ Forall2 same_point l l'.
Proof.
  induction 1 as [|p l [Hla Hlo] _ (l' & IH1 & IH2)].
  - exists []. split; [reflexivity|constructor].
  - destruct (json_number_finite _ Hla) as (la & Ela & Hla').
    destruct (json_number_finite _ Hlo) as (lo & Elo & Hlo').
    eexists. cbn [Wire.json_history]. unfold Wire.json_HistoryPoint.
    rewrite Ela, Elo, IH1. split; [reflexivity|].
    constructor; [|exact IH2]. now repeat split.
Qed.

Lemma json_snapshot_finite (d : TrackingApiResponse) :
  finite_snapshot d ->
  exists d', Wire.json_snapshot d = Some d' /\ same_snapshot d d'.
Proof.
  intros (Hla & Hlo & Hh).
  destruct (json_number_finite _ Hla) as (la & Ela & Hla').
  destruct (json_number_finite _ Hlo) as (lo & Elo & Hlo').
  destruct (json_history_finite Hh) as (h & Eh & Hh').
  eexists. unfold Wire.json_snapshot, Wire.json_TrackingData.
  rewrite Ela, Elo, Eh. split; [reflexivity|]. now repeat split.
Qed.

(** X10. The client reads every answer of the route the way the route
    means it.  An error body is thrown with the message of the route,
    or with "Failed to fetch data" when that message is empty.  A
    snapshot always comes with an ok status; when all its coordinates
    are finite, the JSON text carries it whole and [fetchData] takes
    as the new data a snapshot with the same texts and the same
    numbers, but for the sign of a zero.  (A coordinate that is NaN or
    infinite arrives as [null]; nothing is said about that case.) *)
Theorem client_reads_every_answer (w : world) (c : list LocoData) :
  exists r s',
    call w c = (inr r, s') /\
    match r_body r with
    | Snapshot d =>
        response_ok r = true /\
        (finite_snapshot d ->
         exists d',
           Wire.json_snapshot d = Some d' /\
           same_snapshot d d' /\
           option_map Page.received (reply r) = Some (inr d'))
    | ErrorBody m =>
        option_map Page.received (reply r) =
        Some (inl (ErrorObj (or_else (Some m) (lit "Failed to fetch data"))))
    end.
Proof.
  destruct (POST_snapshot_status w c) as (r & s' & Hcall & Hshape).
  exists r, s'. split; [exact Hcall|].
  unfold reply, response_ok.
  destruct (r_body r) as [m|d]; [reflexivity|].
  rewrite Hshape. split; [reflexivity|].
  intros Hfin. destruct (json_snapshot_finite Hfin) as (d' & Hj & Hsame).
  exists d'. split; [exact Hj|]. split; [exact Hsame|].
  cbn [Wire.json_body]. rewrite Hj. reflexivity.
Qed.

(** The third poll of the scenario, as the client reads it. *)
Lemma client_reads_every_answer_witness :
  exists r d',
    fst (call (world_of further_on None 3000) [doc_at "28.61" "77.20"])
      = inr r /\
    option_map Page.received (reply r) = Some (inr d') /\
    history d' =
      [toHistoryPoint (world_of further_on None 3000)
                      (doc_at "28.61" "77.20");
       currentPoint (world_of further_on None 3000) (data_of further_on)].
Proof.
  destruct (client_reads_every_answer (world_of further_on None 3000)
                                      [doc_at "28.61" "77.20"])
    as (r & s' & Hcall & H).
  assert (Hr : r = snapshot_response (data_of further_on)
                     [toHistoryPoint (world_of further_on None 3000)
                                     (doc_at "28.61" "77.20");
                      currentPoint (world_of further_on None 3000)
                                   (data_of further_on)]).
  { vm_compute in Hcall. inversion Hcall. vm_compute. reflexivity. }
  subst r. cbn [snapshot_response NextResponse_json r_body] in H.
  destruct H as [_ H].
  destruct H as (d' & Hj & _ & Hrec).
  { split; [exact I|]. split; [exact I|].
    constructor; [split; exact I|]. constructor; [split; exact I|].
    constructor. }
  eexists. exists d'. split; [rewrite Hcall; reflexivity|].
  split; [exact Hrec|].
  vm_compute in Hj. inversion Hj. vm_compute. reflexivity.
Defined.

End RouteMore.

(* ===================================================================== *)
(** * Further properties of the tracking session *)
(* ===================================================================== *)

Module PageMore.
Import JS Route Spec Terms JSFacts Page PageFacts.

Lemma reachable_step (s s' : state) (e : event) :
  reachable s -> step s e = Some s' -> reachable s'.
Proof.
  intros [tr Hrun] Hstep. exists (tr ++ [e]).
  revert Hrun. generalize init. induction tr as [|e0 tr IH]; intros s0 Hrun.
  - cbn in Hrun. inversion Hrun; subst. cbn. now rewrite Hstep.
  - cbn [run app] in *. destruct (step s0 e0); [now apply IH|discriminate].
Qed.

(** X11. In every state the component can reach, the runtime holds at
    most one interval: none while tracking is off; while it is on,
    exactly the one the ref points to, whose callback polls the id
    that is in the input, and the form is not loading. *)
Theorem one_interval_iff_tracking (s : state) :
  reachable s ->
  (isTracking s = false /\ timers s = []) \/
  (exists t, isTracking s = true /\ timers s = [(t, locoId s)] /\
             intervalRef s = Some t /\ isLoading s = false).
Proof.
  intros Hr. apply well_timed_cases. now apply reachable_well_timed.
Qed.

Lemma one_interval_iff_tracking_witness :
  exists t,
    isTracking (after polling_trace) = true /\
    timers (after polling_trace) = [(t, locoId (after polling_trace))] /\
    intervalRef (after polling_trace) = Some t /\
    isLoading (after polling_trace) = false.
Proof.
  destruct (@one_interval_iff_tracking (after polling_trace))
    as [[Hoff _]|H].
  - exists polling_trace. exact polling_trace_runs.
  - vm_compute in Hoff. discriminate Hoff.
  - exact H.
Defined.

(** What a poll does to the session when it settles, in any state that
    keeps the invariant. *)
Lemma settle_applies (s : state) (i : nat) (q : poll) (o : outcome) :
  well_timed s -> nth_error (inflight s) i = Some q ->
  exists s2,
    step s (Settle i o) = Some s2 /\
    isLoading s2 = false /\ locoId s2 = locoId s /\
    inflight s2 = remove_nth i (inflight s) /\
    match received o with
    | inl e =>
        error s2 = Some (error_message e) /\
        isTracking s2 = false /\ timers s2 = [] /\
        currentData s2 = currentData s /\ historyData s2 = historyData s
    | inr d =>
        currentData s2 = Some (current d) /\ historyData s2 = history d /\
        error s2 = error s /\
        isTracking s2 = isTracking s || negb (q_isTracking q) /\
        (isTracking s2 = true -> exists t, timers s2 = [(t, locoId s)])
    end.
Proof.
  intros Hinv Hq. cbn [step]. rewrite Hq. eexists. split; [reflexivity|].
  destruct (@well_timed_cases _ Hinv) as [[Hoff Ht]|(t & Hon & Ht & Href & Hl)];
    destruct s as [lid cd hd tr ld er ref tm nx inf];
    cbn in Hoff || cbn in Hon; cbn in Ht, Hq; try cbn in Href; subst;
    unfold fetchData_resume;
    destruct (received o) as [e|d]; destruct (q_isTracking q);
    cbv [commit set_inflight setIsTracking setError setIsLoading
         setHistoryData setCurrentData isTracking locoId Bool.eqb andb negb
         orb polling_effect clear_ref intervalRef clearInterval timers filter
         setInterval_ref currentData historyData error next_timer inflight
         isLoading fst app];
    rewrite ?str_eqb_refl, ?Nat.eqb_refl; cbn;
    try (destruct ref; cbn); repeat split; try discriminate;
    try (intros _; eexists; reflexivity).
Qed.

(** X12. A poll that fails, in whatever reachable state it settles,
    stops the session: the error message is shown, tracking is off,
    the interval is cleared and the form is unlocked; the position and
    the history on display stay as they were. *)
Theorem failed_poll_stops_tracking (s : state) (i : nat) (q : poll)
    (o : outcome) (e : thrown) :
  reachable s -> nth_error (inflight s) i = Some q ->
  received o = inl e ->
  exists s2,
    step s (Settle i o) = Some s2 /\
    error s2 = Some (error_message e) /\
    isTracking s2 = false /\ timers s2 = [] /\ isLoading s2 = false /\
    currentData s2 = currentData s /\ historyData s2 = historyData s.
Proof.
  intros Hr Hq He.
  destruct (@settle_applies s i q o (reachable_well_timed Hr) Hq)
    as (s2 & Hstep & Hl & _ & _ & H).
  rewrite He in H. destruct H as (H1 & H2 & H3 & H4 & H5).
  exists s2. now repeat split.
Qed.

Lemma failed_poll_stops_tracking_witness :
  exists s2,
    step (after polling_trace) (Settle 0 (Rejected store_down)) = Some s2 /\
    error s2 = Some (error_message store_down) /\
    isTracking s2 = false /\ timers s2 = [] /\ isLoading s2 = false /\
    currentData s2 = currentData (after polling_trace) /\
    historyData s2 = historyData (after polling_trace).
Proof.
  apply (@failed_poll_stops_tracking (after polling_trace) 0
           {| q_locoId := loco; q_isTracking := true |}
           (Rejected store_down) store_down).
  - exists polling_trace. exact polling_trace_runs.
  - vm_compute. reflexivity.
  - reflexivity.
Defined.

(** X13. A poll that is answered with a snapshot, in whatever reachable
    state it settles, puts the snapshot on display and unlocks the
    form, and leaves the error message as it was; tracking is on
    afterwards if it was on or if this was the first poll of a start,
    and then exactly one interval polls the id in the input. *)
Theorem answered_poll_updates_session (s : state) (i : nat) (q : poll)
    (o : outcome) (d : TrackingApiResponse) :
  reachable s -> nth_error (inflight s) i = Some q ->
  received o = inr d ->
  exists s2,
    step s (Settle i o) = Some s2 /\
    currentData s2 = Some (current d) /\ historyData s2 = history d /\
    isLoading s2 = false /\ error s2 = error s /\
    isTracking s2 = isTracking s || negb (q_isTracking q) /\
    (isTracking s2 = true -> exists t, timers s2 = [(t, locoId s)]) /\
    (isTracking s2 = false -> timers s2 = []).
Proof.
  intros Hr Hq Hd.
  destruct (@settle_applies s i q o (reachable_well_timed Hr) Hq)
    as (s2 & Hstep & Hl & _ & _ & H).
  rewrite Hd in H. destruct H as (H1 & H2 & H3 & H4 & H5).
  exists s2. repeat split; try assumption.
  intros Hoff.
  assert (Hr2 : reachable s2) by now apply (@reachable_step s s2 (Settle i o)).
  destruct (@well_timed_cases _ (reachable_well_timed Hr2))
    as [[_ Ht]|(t & Hon & _)]; [exact Ht|congruence].
Qed.

Lemma answered_poll_updates_session_witness :
  exists s2,
    step (after [Submit]) (Settle 0 (answer snapshot_a)) = Some s2 /\
    currentData s2 = Some (current snapshot_a) /\
    historyData s2 = history snapshot_a /\
    isLoading s2 = false /\ error s2 = error (after [Submit]) /\
    isTracking s2 = isTracking (after [Submit]) || negb false /\
    (isTracking s2 = true ->
     exists t, timers s2 = [(t, locoId (after [Submit]))]) /\
    (isTracking s2 = false -> timers s2 = []).
Proof.
  apply (@answered_poll_updates_session (after [Submit]) 0
           {| q_locoId := loco; q_isTracking := false |}
           (answer snapshot_a) snapshot_a).
  - exists [Submit]. vm_compute. reflexivity.
  - vm_compute. reflexivity.
  - reflexivity.
Defined.

Lemma step_submit_off (s : state) :
  isTracking s = false -> isLoading s = false ->
  step s Submit =
  Some (fetchData_begin false (locoId s)
          (setHistoryData [] (setCurrentData None s))).
Proof.
  intros Hoff Hl. cbn [step]. rewrite Hl. unfold handleFormSubmit.
  rewrite Hoff. unfold commit.
  replace (isTracking (fetchData_begin false (locoId s)
             (setHistoryData [] (setCurrentData None s))))
    with (isTracking s) by reflexivity.
  replace (locoId (fetchData_begin false (locoId s)
             (setHistoryData [] (setCurrentData None s))))
    with (locoId s) by reflexivity.
  now rewrite eqb_reflx, str_eqb_refl.
Qed.

(** X14. Pressing Track in a reachable state that is neither tracking
    nor loading clears the data and the error on display, sends one
    poll for the trimmed id of the input, and locks the form: until a
    poll settles, neither a second submit nor a change of the id can
    happen; no interval is set yet. *)
Theorem start_clears_and_locks (s : state) :
  reachable s -> isTracking s = false -> isLoading s = false ->
  exists s1,
    step s Submit = Some s1 /\
    currentData s1 = None /\ historyData s1 = [] /\ error s1 = None /\
    isLoading s1 = true /\ isTracking s1 = false /\ timers s1 = [] /\
    inflight s1 = inflight s ++ [poll_for s false] /\
    step s1 Submit = None /\
    forall v, step s1 (ChangeLocoId v) = None.
Proof.
  intros Hr Hoff Hl.
  destruct (@well_timed_cases _ (reachable_well_timed Hr))
    as [[_ Ht]|(t & Hon & _)]; [|congruence].
  eexists. split; [now apply step_submit_off|].
  repeat split; try reflexivity; assumption.
Qed.

Lemma start_clears_and_locks_witness :
  exists s1,
    step (after stop_trace) Submit = Some s1 /\
    currentData s1 = None /\ historyData s1 = [] /\ error s1 = None /\
    isLoading s1 = true /\ isTracking s1 = false /\ timers s1 = [] /\
    inflight s1 = inflight (after stop_trace)
                  ++ [poll_for (after stop_trace) false] /\
    step s1 Submit = None /\
    forall v, step s1 (ChangeLocoId v) = None.
Proof.
  apply (@start_clears_and_locks (after stop_trace)).
  - exists stop_trace. exact stop_trace_runs.
  - reflexivity.
  - reflexivity.
Defined.

Lemma tick_step (s s' : state) (t : nat) :
  well_timed s -> step s (Tick t) = Some s' ->
  inflight s' = inflight s ++ [poll_for s true] /\
  error s' = None /\ isTracking s' = true /\ isTracking s = true /\
  timers s' = timers s /\ timers s = [(t, locoId s)] /\
  isLoading s' = false /\
  currentData s' = currentData s /\ historyData s' = historyData s.
Proof.
  intros Hinv Hstep. cbn [step] in Hstep.
  destruct (@well_timed_cases _ Hinv)
    as [[Hoff Ht]|(t' & Hon & Ht & Href & Hl)].
  - rewrite Ht in Hstep. discriminate.
  - rewrite Ht in Hstep. cbn [timer_closure] in Hstep.
    destruct (Nat.eqb_spec t' t) as [Heq|]; [|discriminate].
    inversion Hstep as [Hs']; clear Hstep. subst t'.
    unfold commit.
    replace (isTracking (fetchData_begin true (locoId s) s))
      with (isTracking s) by reflexivity.
    replace (locoId (fetchData_begin true (locoId s) s))
      with (locoId s) by reflexivity.
    rewrite eqb_reflx, str_eqb_refl. cbn [andb].
    repeat split; try reflexivity; assumption.
Qed.

(** X15. A tick, whenever one fires in a reachable state, sends a poll
    for the trimmed id that is in the input at that moment (the
    callback never holds a stale id), clears the error message, and
    changes nothing else: tracking stays on, the interval, the position
    and the history stay as they are. *)
Theorem tick_polls_current_id (s s' : state) (t : nat) :
  reachable s -> step s (Tick t) = Some s' ->
  inflight s' = inflight s ++ [poll_for s true] /\
  error s' = None /\ isTracking s' = true /\
  timers s' = timers s /\
  currentData s' = currentData s /\ historyData s' = historyData s.
Proof.
  intros Hr Hstep.
  destruct (@tick_step s s' t (reachable_well_timed Hr) Hstep)
    as (H1 & H2 & H3 & _ & H5 & _ & _ & H8 & H9).
  now repeat split.
Qed.

Lemma tick_polls_current_id_witness :
  inflight (after polling_trace) =
    inflight (after [Submit; Settle 0 (answer snapshot_a)])
    ++ [poll_for (after [Submit; Settle 0 (answer snapshot_a)]) true].
Proof.
  refine (proj1 (@tick_polls_current_id
                   (after [Submit; Settle 0 (answer snapshot_a)])
                   (after polling_trace) 0 _ _)).
  - exists [Submit; Settle 0 (answer snapshot_a)]. vm_compute. reflexivity.
  - vm_compute. reflexivity.
Defined.

Lemma ticks_pile_up (n : nat) (s : state) :
  well_timed s -> isTracking s = true -> timers s = [(0, locoId s)] ->
  exists s',
    run s (repeat (Tick 0) n) = Some s' /\
    isTracking s' = true /\
    length (inflight s') = length (inflight s) + n.
Proof.
  revert s. induction n as [|n IH]; intros s Hinv Hon Ht.
  - exists s. cbn. repeat split; [exact Hon|lia].
  - cbn [repeat run].
    destruct (step s (Tick 0)) as [s1|] eqn:Hstep.
    2:{ cbn [step] in Hstep. rewrite Ht in Hstep. cbn in Hstep.
        discriminate. }
    destruct (@tick_step s s1 0 Hinv Hstep)
      as (Hin & _ & Hon1 & _ & Ht1 & _ & _ & _ & _).
    assert (Hinv1 : well_timed s1) by now apply (@step_well_timed s s1 (Tick 0)).
    assert (Hid : locoId s1 = locoId s).
    { destruct (@well_timed_cases _ Hinv1) as [[Hoff _]|(t' & _ & Ht' & _)];
        [congruence|]. rewrite Ht1, Ht in Ht'. now inversion Ht'. }
    destruct (IH s1 Hinv1 Hon1) as (s' & Hrun & Hon' & Hlen).
    { now rewrite Ht1, Ht, Hid. }
    exists s'. repeat split; [exact Hrun|exact Hon'|].
    rewrite Hlen, Hin, length_app. simpl. lia.
Qed.

Lemma run_app (tr1 tr2 : list event) (s : state) :
  run s (tr1 ++ tr2) =
  match run s tr1 with Some s' => run s' tr2 | None => None end.
Proof.
  revert s. induction tr1 as [|e tr1 IH]; intros s; cbn [app run];
    [reflexivity|]. destruct (step s e); [apply IH|reflexivity].
Qed.

(** X16. Ticks do not wait for the poll before them: for every [n]
    there is a run of the component, a start followed by [n] ticks
    whose requests are all still pending, that ends tracking with [n]
    polls in flight at once. *)
Theorem polls_are_not_serialized (n : nat) :
  exists s,
    run init (burst_trace n) = Some s /\
    isTracking s = true /\ length (inflight s) = n.
Proof.
  unfold burst_trace. rewrite run_app.
  set (s0 := after [Submit; Settle 0 (answer snapshot_a)]).
  assert (Hrun : run init [Submit; Settle 0 (answer snapshot_a)] = Some s0)
    by (vm_compute; reflexivity).
  assert (Hon0 : isTracking s0 = true) by (vm_compute; reflexivity).
  assert (Ht0 : timers s0 = [(0, locoId s0)]) by (vm_compute; reflexivity).
  assert (Hin0 : length (inflight s0) = 0) by (vm_compute; reflexivity).
  rewrite Hrun. clearbody s0.
  destruct (@ticks_pile_up n s0) as (s & Hs & Hon & Hlen);
    [apply reachable_well_timed;
     exists [Submit; Settle 0 (answer snapshot_a)]; exact Hrun
    |exact Hon0|exact Ht0|].
  exists s. repeat split; [exact Hs|exact Hon|].
  now rewrite Hlen, Hin0.
Qed.

End PageMore.

(* ===================================================================== *)
(** * Properties of the map *)
(* ===================================================================== *)

Module MapFacts.
Import JS Route Spec Terms JSFacts RouteFacts MapView.

Lemma mapi_from_length {A B} (f : A -> nat -> B) (i : nat) (l : list A) :
  length (mapi_from f i l) = length l.
Proof.
  revert i. induction l as [|x l IH]; intros i; simpl; [reflexivity|].
  now rewrite IH.
Qed.

Lemma mapi_from_nth {A B} (f : A -> nat -> B) (i k : nat) (l : list A) :
  nth_error (mapi_from f i l) k =
  option_map (fun x => f x (i + k)) (nth_error l k).
Proof.
  revert i k. induction l as [|x l IH]; intros i [|k]; simpl;
    try reflexivity.
  - now rewrite Nat.add_0_r.
  - rewrite IH. now rewrite Nat.add_succ_comm.
Qed.

Lemma historyMarker_hidden (cur : TrackingData) (len k : nat)
    (p : HistoryPoint) :
  k < len ->
  (historyMarker (lat cur, lng cur) len p k = None <->
   coincides cur p = true /\ S k = len).
Proof.
  intros Hk. unfold historyMarker, coincides. cbn [fst snd].
  destruct (strict_eq (h_lat p) (lat cur) && strict_eq (h_lng p) (lng cur));
    cbn [andb].
  - destruct (Z.eqb_spec (Z.of_nat k) (Z.of_nat len - 1)); split;
      try discriminate; try (intros; split; [reflexivity|lia]);
      try reflexivity.
    intros [_ H]. lia.
  - split; [discriminate|]. intros [H _]. discriminate.
Qed.

(** X17. The map draws one history marker per history point, at that
    point's coordinates, except that the last point is left out when
    its coordinates are strictly equal to the current position; a point
    anywhere else in the history is drawn even at that position, and
    so is a last point with a NaN coordinate. *)
Theorem only_the_last_point_is_left_out (cur : TrackingData)
    (hist : list HistoryPoint) :
  length (historyMarkers (TrackingMap cur hist)) = length hist /\
  (forall k p,
      nth_error hist k = Some p ->
      (nth_error (historyMarkers (TrackingMap cur hist)) k = Some None <->
       coincides cur p = true /\ S k = length hist)) /\
  (forall k p m,
      nth_error hist k = Some p ->
      nth_error (historyMarkers (TrackingMap cur hist)) k = Some (Some m) ->
      m_position m = (h_lat p, h_lng p) /\ m_icon m = historyMarkerIcon).
Proof.
  unfold TrackingMap. cbn [historyMarkers].
  split; [apply mapi_from_length|]. split.
  - intros k p Hp. rewrite mapi_from_nth, Hp. cbn [option_map Nat.add].
    assert (Hk : k < length hist) by (apply nth_error_Some; congruence).
    rewrite <- (historyMarker_hidden cur p Hk).
    split; congruence.
  - intros k p m Hp. rewrite mapi_from_nth, Hp. cbn [option_map Nat.add].
    unfold historyMarker.
    destruct (_ && _); intros H; inversion H; subst. now split.
Qed.







End MapFacts.
